(** * BlockHeader (lib/block/blockheader.js): a shallow embedding

    The header codec of the BitcoinQuark fork of bitcore-lib: the layout
    detector, construction from a plain object, the wire codec, the compact
    target decoder, the difficulty ratio, the memoised id and the
    proof-of-work check.

    Conventions.  A JavaScript [Buffer] is a [list byte]; a number that the
    code treats as an integer is a [Z]; a [BN] (arbitrary-precision integer)
    is a [Z]; a JavaScript string is a [string].  A field that may hold
    values of several JavaScript types is a [jsval].  An exception is the
    [Throw] branch of [result]. *)

From Stdlib Require Import ZArith List Bool Lia.
From Stdlib.Strings Require Import String Ascii Byte.
From Stdlib Require Import DecimalString.
From Stdlib Require DecimalFacts DecimalPos DecimalN Nnat.
Import ListNotations.

Local Open Scope Z_scope.

(* ------------------------------------------------------------------ *)
(** ** Exceptions and the result monad *)

Inductive exn : Type :=
| TypeError        (* an unrecognised argument, a property of undefined *)
| AssertionError   (* BufferWriter.write given something that is no Buffer *)
| RangeError       (* a fixed-width integer out of range, a read past the end *)
| InvalidState.    (* $.checkState failed *)

Inductive result (A : Type) : Type :=
| Ok (a : A)
| Throw (e : exn).
Arguments Ok {A} a.
Arguments Throw {A} e.

Definition bind {A B : Type} (m : result A) (k : A -> result B) : result B :=
  match m with
  | Ok a => k a
  | Throw e => Throw e
  end.

Notation "'do' x <- m ; k" := (bind m (fun x => k))
  (at level 10, x name, m at level 100, k at level 200).
Notation "'do' ' p <- m ; k" := (bind m (fun x => let 'p := x in k))
  (at level 10, p pattern, m at level 100, k at level 200).

(* ------------------------------------------------------------------ *)
(** ** Bytes and little-endian integers *)

Definition Buffer : Type := list byte.

Definition Z_of_byte (b : byte) : Z := Z.of_N (Byte.to_N b).

Definition byte_of_Z (z : Z) : byte :=
  match Byte.of_N (Z.to_N (z mod 256)) with
  | Some b => b
  | None => x00
  end.

(** [le_bytes k n]: the [k] low-order bytes of [n], least significant first. *)
Fixpoint le_bytes (k : nat) (n : Z) : Buffer :=
  match k with
  | O => []
  | S k' => byte_of_Z (n mod 256) :: le_bytes k' (n / 256)
  end.

(** The unsigned integer a little-endian byte sequence denotes. *)
Fixpoint le_value (l : Buffer) : Z :=
  match l with
  | [] => 0
  | b :: t => Z_of_byte b + 256 * le_value t
  end.

(** BufferUtil.reverse: a reversed copy. *)
Definition reverse (b : Buffer) : Buffer := rev b.

(* ------------------------------------------------------------------ *)
(** ** Hexadecimal text *)

Definition hex_digit (n : Z) : ascii :=
  if n <? 10 then ascii_of_N (Z.to_N (48 + n))
  else ascii_of_N (Z.to_N (87 + n)).

(** The value of one hexadecimal digit, upper or lower case. *)
Definition hex_val (c : ascii) : option Z :=
  let n := Z.of_N (N_of_ascii c) in
  if (48 <=? n) && (n <=? 57) then Some (n - 48)
  else if (97 <=? n) && (n <=? 102) then Some (n - 87)
  else if (65 <=? n) && (n <=? 70) then Some (n - 55)
  else None.

(** buf.toString('hex'): two lower-case digits per byte. *)
Fixpoint toHex (b : Buffer) : string :=
  match b with
  | [] => EmptyString
  | x :: t =>
      String (hex_digit (Z_of_byte x / 16))
        (String (hex_digit (Z_of_byte x mod 16)) (toHex t))
  end.

(** new Buffer(str, 'hex'): one byte per pair of digits; decoding stops at
    the first pair that is not two hexadecimal digits, and an unpaired last
    character is dropped. *)
Fixpoint fromHex (s : string) : Buffer :=
  match s with
  | String c1 (String c2 t) =>
      match hex_val c1, hex_val c2 with
      | Some h, Some l => byte_of_Z (16 * h + l) :: fromHex t
      | _, _ => []
      end
  | _ => []
  end.

(** new BN(str, 'hex') on a string of hexadecimal digits: the digits are
    folded most significant first; a character that is no digit counts 0. *)
Fixpoint BN_of_hex_acc (acc : Z) (s : string) : Z :=
  match s with
  | EmptyString => acc
  | String c t =>
      BN_of_hex_acc (16 * acc + match hex_val c with Some d => d | None => 0 end) t
  end.

Definition BN_of_hex (s : string) : Z := BN_of_hex_acc 0 s.

(** bn.toString(10) for a natural number. *)
Definition BN_toString10 (n : Z) : string :=
  NilZero.string_of_uint (N.to_uint (Z.to_N n)).

(* ------------------------------------------------------------------ *)
(** ** JavaScript values and strings *)

(** The values a header field holds: a field of a plain object arrives as a
    hexadecimal string or as a Buffer, the legacy nonce is a number, and the
    fields of the other layout are absent. *)
Inductive jsval : Type :=
| JUndefined
| JNumber (n : Z)
| JString (s : string)
| JBuffer (b : Buffer).

(** ToBoolean, as [if (v)] and [!v] apply it. *)
Definition truthy (v : jsval) : bool :=
  match v with
  | JUndefined => false
  | JNumber n => negb (n =? 0)
  | JString s => negb (String.eqb s EmptyString)
  | JBuffer _ => true
  end.

(** _.isString *)
Definition isString (v : jsval) : bool :=
  match v with
  | JString _ => true
  | _ => false
  end.

(** [a === b] where [a] is a string. *)
Definition strict_eq_string (a : string) (b : jsval) : bool :=
  match b with
  | JString s => String.eqb a s
  | _ => false
  end.

(** String.prototype.slice(start, end), [end] omitted when [None]. *)
Definition slice (s : string) (start : Z) (stop : option Z) : string :=
  let len := Z.of_nat (String.length s) in
  let clamp i := if i <? 0 then Z.max (len + i) 0 else Z.min i len in
  let from := clamp start in
  let to := match stop with
            | None => len
            | Some e => clamp e
            end in
  substring (Z.to_nat from) (Z.to_nat (Z.max (to - from) 0)) s.

(** ToInt32 and ToUint32 on an integer, as the bit operators apply them. *)
Definition toUint32 (z : Z) : Z := z mod 2 ^ 32.
Definition toInt32 (z : Z) : Z :=
  let u := z mod 2 ^ 32 in
  if u <? 2 ^ 31 then u else u - 2 ^ 32.

(** What [getDifficulty] returns: the literal 1, or [parseFloat] of a
    string; the parse itself is left symbolic. *)
Inductive Number : Type :=
| NumberLit (z : Z)
| parseFloat (s : string).

(* ------------------------------------------------------------------ *)
(** ** BufferWriter and BufferReader *)

(** Modelled from the spec: lib/encoding/bufferwriter.js is not among the
    sources.  "A positioned byte reader/writer supporting little-endian
    fixed-width integer reads/writes and varint reads/writes": the writer
    collects Buffers and concatenates them; a fixed-width write refuses a
    value that is out of range or no number; [write] accepts Buffers only;
    the varint is Bitcoin's length prefix (one byte below 253, else a tag
    byte 253, 254 or 255 and 2, 4 or 8 little-endian bytes). *)
Definition BufferWriter : Type := list Buffer.

Definition write (bw : BufferWriter) (v : jsval) : result BufferWriter :=
  match v with
  | JBuffer b => Ok (bw ++ [b])
  | _ => Throw AssertionError
  end.

Definition writeUIntLE (k : nat) (bw : BufferWriter) (v : jsval)
  : result BufferWriter :=
  match v with
  | JNumber n =>
      if (0 <=? n) && (n <? 256 ^ Z.of_nat k)
      then Ok (bw ++ [le_bytes k n])
      else Throw RangeError
  | _ => Throw TypeError
  end.

Definition writeUInt32LE := writeUIntLE 4.

Definition varintBufNum (n : Z) : Buffer :=
  if n <? 253 then le_bytes 1 n
  else if n <? 65536 then byte_of_Z 253 :: le_bytes 2 n
  else if n <? 4294967296 then byte_of_Z 254 :: le_bytes 4 n
  else byte_of_Z 255 :: le_bytes 4 (toInt32 n) ++ le_bytes 4 (n / 4294967296).

Definition writeVarintNum (bw : BufferWriter) (n : Z) : BufferWriter :=
  bw ++ [varintBufNum n].

Definition concat (bw : BufferWriter) : Buffer := List.concat bw.

(** Modelled from the spec: lib/encoding/bufferreader.js is not among the
    sources.  The reader holds the bytes and a cursor; "reading past the
    available bytes surfaces whatever error the underlying byte-reader
    raises". *)
Record BufferReader : Type := mkBufferReader {
  buf : Buffer;
  pos : nat
}.

Definition newBufferReader (b : Buffer) : BufferReader :=
  {| buf := b; pos := 0 |}.

Definition read (br : BufferReader) (len : nat)
  : result (Buffer * BufferReader) :=
  if (pos br + len <=? List.length (buf br))%nat
  then Ok (firstn len (skipn (pos br) (buf br)),
           {| buf := buf br; pos := pos br + len |})
  else Throw RangeError.

Definition readUIntLE (k : nat) (br : BufferReader)
  : result (Z * BufferReader) :=
  do '(b, br') <- read br k;
  Ok (le_value b, br').

Definition readUInt8 := readUIntLE 1.
Definition readUInt16LE := readUIntLE 2.
Definition readUInt32LE := readUIntLE 4.

Definition readVarintNum (br : BufferReader) : result (Z * BufferReader) :=
  do '(first, br1) <- readUInt8 br;
  if first =? 253 then readUInt16LE br1
  else if first =? 254 then readUInt32LE br1
  else if first =? 255 then
    do '(n, br2) <- readUIntLE 8 br1;
    if n <=? 2 ^ 53 then Ok (n, br2) else Throw RangeError
  else Ok (first, br1).

(** readReverse: the rest of the buffer, reversed. *)
Definition readReverse (br : BufferReader) : Buffer :=
  reverse (skipn (pos br) (buf br)).

(* ------------------------------------------------------------------ *)
(** ** The constants and the layout detector *)

Definition GENESIS_BITS : Z := 0x1d00ffff.
Definition QUARK_GENESIS_BITS : Z := 0x1f7fffff.
Definition LOCKTIME_THRESHOLD : Z := 500000000.

(** BlockHeader._isBitcoinQuark: [arg] is [undefined] ([None]) or a number. *)
Definition _isBitcoinQuark (arg : option Z) : bool :=
  match arg with
  | None => false
  | Some n =>
      if n =? 0 then false
      else if n >? LOCKTIME_THRESHOLD then false
      else true
  end.

(* ------------------------------------------------------------------ *)
(** ** Plain objects and header instances *)

(** The plain object that [_fromObject] receives and returns, that
    [_fromBufferReader] returns and that [toObject] renders.  A property
    the object lacks is [JUndefined] or [None]. *)
Module Obj.
Record t : Type := mk {
  hash : jsval;
  version : Z;
  prevHash : jsval;
  merkleRoot : jsval;
  height : option Z;
  reserved : jsval;
  time : Z;
  timestamp : option Z;
  bits : Z;
  nonce : jsval;
  solution : jsval
}.
End Obj.

(** A BlockHeader instance: the fields the constructor assigns and the
    cache [_id] of the getter. *)
Record BlockHeader : Type := mkBlockHeader {
  version : Z;
  prevHash : jsval;
  merkleRoot : jsval;
  height : option Z;
  reserved : jsval;
  time : Z;
  timestamp : Z;
  bits : Z;
  nonce : jsval;
  solution : jsval;
  _id : option string
}.

Definition with_id (h : BlockHeader) (s : string) : BlockHeader :=
  {| version := version h; prevHash := prevHash h;
     merkleRoot := merkleRoot h; height := height h;
     reserved := reserved h; time := time h; timestamp := timestamp h;
     bits := bits h; nonce := nonce h; solution := solution h;
     _id := Some s |}.

(** The argument of the constructor. *)
Inductive Arg : Type :=
| ArgBuffer (b : Buffer)
| ArgObject (o : Obj.t)
| ArgOther.

(* ------------------------------------------------------------------ *)
(** ** Construction from a plain object *)

(** new Buffer(str, 'hex') reversed, for a field that is a string. *)
Definition reversed_hex (v : jsval) : jsval :=
  match v with
  | JString s => JBuffer (reverse (fromHex s))
  | _ => v
  end.

Definition plain_hex (v : jsval) : jsval :=
  match v with
  | JString s => JBuffer (fromHex s)
  | _ => v
  end.

(** BlockHeader._fromObject *)
Definition _fromObject (data : Obj.t) : Obj.t :=
  let prevHash := Obj.prevHash data in
  let merkleRoot := Obj.merkleRoot data in
  let height := Obj.height data in
  let isBitcoinQuark := _isBitcoinQuark height in
  let reserved := Obj.reserved data in
  let nonce := Obj.nonce data in
  let solution := Obj.solution data in
  let prevHash :=
    if isString (Obj.prevHash data) then reversed_hex (Obj.prevHash data)
    else prevHash in
  let merkleRoot :=
    if isString (Obj.merkleRoot data) then reversed_hex (Obj.merkleRoot data)
    else merkleRoot in
  let reserved :=
    if isBitcoinQuark && isString (Obj.reserved data)
    then reversed_hex (Obj.reserved data) else reserved in
  let nonce :=
    if isBitcoinQuark && isString (Obj.nonce data)
    then reversed_hex (Obj.nonce data) else nonce in
  let solution :=
    if isBitcoinQuark && isString (Obj.solution data)
    then plain_hex (Obj.solution data) else solution in
  {| Obj.hash := Obj.hash data;
     Obj.version := Obj.version data;
     Obj.prevHash := prevHash;
     Obj.height := height;
     Obj.merkleRoot := merkleRoot;
     Obj.reserved := reserved;
     Obj.time := Obj.time data;
     Obj.timestamp := Some (Obj.time data);
     Obj.bits := Obj.bits data;
     Obj.nonce := Obj.nonce data;
     Obj.solution := solution |}.

(* ------------------------------------------------------------------ *)
(** ** The wire codec *)

(** BlockHeader._fromBufferReader *)
Definition _fromBufferReader (br : BufferReader)
  : result (Obj.t * BufferReader) :=
  do '(version, br) <- readUInt32LE br;
  do '(prevHash, br) <- read br 32;
  do '(merkleRoot, br) <- read br 32;
  do '(timeOrHeight, br) <- readUInt32LE br;
  let isBitcoinQuark := _isBitcoinQuark (Some timeOrHeight) in
  if isBitcoinQuark then
    do '(reserved, br) <- read br 28;
    do '(time, br) <- readUInt32LE br;
    do '(bits, br) <- readUInt32LE br;
    do '(nonce, br) <- read br 32;
    do '(lenSolution, br) <- readVarintNum br;
    do '(solution, br) <- read br (Z.to_nat lenSolution);
    Ok ({| Obj.hash := JUndefined;
           Obj.version := version;
           Obj.prevHash := JBuffer prevHash;
           Obj.merkleRoot := JBuffer merkleRoot;
           Obj.height := Some timeOrHeight;
           Obj.reserved := JBuffer reserved;
           Obj.time := time;
           Obj.timestamp := None;
           Obj.bits := bits;
           Obj.nonce := JBuffer nonce;
           Obj.solution := JBuffer solution |}, br)
  else
    do '(bits, br) <- readUInt32LE br;
    do '(nonce, br) <- readUInt32LE br;
    Ok ({| Obj.hash := JUndefined;
           Obj.version := version;
           Obj.prevHash := JBuffer prevHash;
           Obj.merkleRoot := JBuffer merkleRoot;
           Obj.height := None;
           Obj.reserved := JUndefined;
           Obj.time := timeOrHeight;
           Obj.timestamp := None;
           Obj.bits := bits;
           Obj.nonce := JNumber nonce;
           Obj.solution := JUndefined |}, br).

(** [this.solution.length]: the byte count of a Buffer, the character
    count of a string; any other value has no usable length. *)
Definition length_of (v : jsval) : result Z :=
  match v with
  | JBuffer b => Ok (Z.of_nat (List.length b))
  | JString s => Ok (Z.of_nat (String.length s))
  | _ => Throw TypeError
  end.

(** BlockHeader.prototype.toBufferWriter; [bw] is the writer passed in, a
    fresh one when it is omitted. *)
Definition toBufferWriter (this : BlockHeader) (bw : option BufferWriter)
  : result BufferWriter :=
  let bw := match bw with
            | Some w => w
            | None => []
            end in
  do bw <- writeUInt32LE bw (JNumber (version this));
  do bw <- write bw (prevHash this);
  do bw <- write bw (merkleRoot this);
  let isBitcoinQuark := _isBitcoinQuark (height this) in
  if isBitcoinQuark then
    do bw <- writeUInt32LE bw (match height this with
                               | Some n => JNumber n
                               | None => JUndefined
                               end);
    do bw <- write bw (reserved this);
    do bw <- writeUInt32LE bw (JNumber (time this));
    do bw <- writeUInt32LE bw (JNumber (bits this));
    do bw <- write bw (nonce this);
    do len <- length_of (solution this);
    let bw := writeVarintNum bw len in
    write bw (solution this)
  else
    do bw <- writeUInt32LE bw (JNumber (time this));
    do bw <- writeUInt32LE bw (JNumber (bits this));
    writeUInt32LE bw (nonce this).

(** BlockHeader.prototype.toBuffer *)
Definition toBuffer (this : BlockHeader) : result Buffer :=
  do bw <- toBufferWriter this None;
  Ok (concat bw).

(* ------------------------------------------------------------------ *)
(** ** The compact target and the difficulty *)

(** The loop [while (mov-- > 0) target = target.mul(new BN(2))]: the body
    runs once for each of the [n] positive values [mov] takes. *)
Fixpoint double_times (n : nat) (target : Z) : Z :=
  match n with
  | O => target
  | S n' => double_times n' (target * 2)
  end.

(** BlockHeader.prototype.getTargetDifficulty; [arg] is [None] when the
    call passes no argument. *)
Definition getTargetDifficulty (this : BlockHeader) (arg : option Z) : Z :=
  let bits := match arg with
              | Some b => if b =? 0 then bits this else b
              | None => bits this
              end in
  let target := Z.land (toInt32 bits) 0xffffff in
  let mov := 8 * (Z.shiftr (toUint32 bits) 24 - 3) in
  double_times (Z.to_nat mov) target.

(** BlockHeader.prototype.getDifficulty.  [currentTargetBN == 0] compares
    the decimal rendering of the BN with 0, which holds exactly at zero;
    BN division truncates. *)
Definition getDifficulty (this : BlockHeader) : Number :=
  let isBitcoinQuark := _isBitcoinQuark (height this) in
  let genesisBits := if isBitcoinQuark then QUARK_GENESIS_BITS
                     else GENESIS_BITS in
  let difficulty1TargetBN :=
    getTargetDifficulty this (Some genesisBits) * 10 ^ 8 in
  let currentTargetBN := getTargetDifficulty this None in
  if currentTargetBN =? 0 then NumberLit 1
  else
    let difficultyString :=
      BN_toString10 (Z.quot difficulty1TargetBN currentTargetBN) in
    let decimalPos := Z.of_nat (String.length difficultyString) - 8 in
    let difficultyString :=
      (slice difficultyString 0 (Some decimalPos) ++ "."
         ++ slice difficultyString decimalPos None)%string in
    parseFloat difficultyString.

(** BN.prototype.cmp *)
Definition BN_cmp (a b : Z) : Z :=
  match a ?= b with
  | Lt => -1
  | Eq => 0
  | Gt => 1
  end.

(* ------------------------------------------------------------------ *)
(** ** The id, the constructor and the proof of work *)

(** Assignments to the properties of an instance, as code outside the
    class may make them: the ten fields are data properties, [id] and
    [hash] are the accessor property [idProperty]. *)
Inductive Assignment : Type :=
| SetVersion (z : Z)
| SetPrevHash (v : jsval)
| SetMerkleRoot (v : jsval)
| SetHeight (z : option Z)
| SetReserved (v : jsval)
| SetTime (z : Z)
| SetTimestamp (z : Z)
| SetBits (z : Z)
| SetNonce (v : jsval)
| SetSolution (v : jsval)
| SetIdProperty (v : jsval)
| SetHashProperty (v : jsval).

(** _.noop, the setter of [idProperty]. *)
Definition noop (this : BlockHeader) (v : jsval) : BlockHeader := this.

Definition assign (this : BlockHeader) (a : Assignment) : BlockHeader :=
  match a with
  | SetVersion z =>
      mkBlockHeader z (prevHash this) (merkleRoot this) (height this)
        (reserved this) (time this) (timestamp this) (bits this)
        (nonce this) (solution this) (_id this)
  | SetPrevHash v =>
      mkBlockHeader (version this) v (merkleRoot this) (height this)
        (reserved this) (time this) (timestamp this) (bits this)
        (nonce this) (solution this) (_id this)
  | SetMerkleRoot v =>
      mkBlockHeader (version this) (prevHash this) v (height this)
        (reserved this) (time this) (timestamp this) (bits this)
        (nonce this) (solution this) (_id this)
  | SetHeight z =>
      mkBlockHeader (version this) (prevHash this) (merkleRoot this) z
        (reserved this) (time this) (timestamp this) (bits this)
        (nonce this) (solution this) (_id this)
  | SetReserved v =>
      mkBlockHeader (version this) (prevHash this) (merkleRoot this)
        (height this) v (time this) (timestamp this) (bits this)
        (nonce this) (solution this) (_id this)
  | SetTime z =>
      mkBlockHeader (version this) (prevHash this) (merkleRoot this)
        (height this) (reserved this) z (timestamp this) (bits this)
        (nonce this) (solution this) (_id this)
  | SetTimestamp z =>
      mkBlockHeader (version this) (prevHash this) (merkleRoot this)
        (height this) (reserved this) (time this) z (bits this)
        (nonce this) (solution this) (_id this)
  | SetBits z =>
      mkBlockHeader (version this) (prevHash this) (merkleRoot this)
        (height this) (reserved this) (time this) (timestamp this) z
        (nonce this) (solution this) (_id this)
  | SetNonce v =>
      mkBlockHeader (version this) (prevHash this) (merkleRoot this)
        (height this) (reserved this) (time this) (timestamp this)
        (bits this) v (solution this) (_id this)
  | SetSolution v =>
      mkBlockHeader (version this) (prevHash this) (merkleRoot this)
        (height this) (reserved this) (time this) (timestamp this)
        (bits this) (nonce this) v (_id this)
  | SetIdProperty v => noop this v
  | SetHashProperty v => noop this v
  end.

Definition assign_all (this : BlockHeader) (l : list Assignment)
  : BlockHeader :=
  fold_left assign l this.

(** BufferUtil.reverse(v).toString('hex') for a field of an instance.  Only
    a Buffer is in the domain of the model. *)
Definition reversed_toHex (v : jsval) : result string :=
  match v with
  | JBuffer b => Ok (toHex (reverse b))
  | _ => Throw TypeError
  end.

(** v.toString('hex'): the digits of a Buffer; a string is its own
    [toString]; [undefined] has no properties and 'hex' is no radix. *)
Definition toString_hex (v : jsval) : result string :=
  match v with
  | JBuffer b => Ok (toHex b)
  | JString s => Ok s
  | JUndefined => Throw TypeError
  | JNumber _ => Throw RangeError
  end.

Section WithHash.

(** Hash.sha256sha256 (lib/crypto/hash.js, an external collaborator): the
    double SHA-256 of a buffer. *)
Variable sha256sha256 : Buffer -> Buffer.

(** BlockHeader.prototype._getHash *)
Definition _getHash (this : BlockHeader) : result Buffer :=
  do buf <- toBuffer this;
  Ok (sha256sha256 buf).

(** The getter of [idProperty], shared by [id] and [hash]: the value read
    and the instance after the read.  [!this._id] holds when [_id] is
    absent and when it is the empty string. *)
Definition get_id (this : BlockHeader) : result (string * BlockHeader) :=
  let compute :=
    do hashBuf <- _getHash this;
    let s := toHex (readReverse (newBufferReader hashBuf)) in
    Ok (s, with_id this s) in
  match _id this with
  | None => compute
  | Some s => if truthy (JString s) then Ok (s, this) else compute
  end.

(** BlockHeader.prototype.toObject *)
Definition toObject (this : BlockHeader) : result (Obj.t * BlockHeader) :=
  let isBitcoinQuark := _isBitcoinQuark (height this) in
  if isBitcoinQuark then
    do '(hash, this) <- get_id this;
    do prevHash <- reversed_toHex (prevHash this);
    do merkleRoot <- reversed_toHex (merkleRoot this);
    do reserved <- reversed_toHex (reserved this);
    do nonce <- reversed_toHex (nonce this);
    do solution <- toString_hex (solution this);
    Ok ({| Obj.hash := JString hash;
           Obj.version := version this;
           Obj.prevHash := JString prevHash;
           Obj.merkleRoot := JString merkleRoot;
           Obj.height := height this;
           Obj.reserved := JString reserved;
           Obj.time := time this;
           Obj.timestamp := None;
           Obj.bits := bits this;
           Obj.nonce := JString nonce;
           Obj.solution := JString solution |}, this)
  else
    do '(hash, this) <- get_id this;
    do prevHash <- reversed_toHex (prevHash this);
    do merkleRoot <- reversed_toHex (merkleRoot this);
    Ok ({| Obj.hash := JString hash;
           Obj.version := version this;
           Obj.prevHash := JString prevHash;
           Obj.merkleRoot := JString merkleRoot;
           Obj.height := None;
           Obj.reserved := JUndefined;
           Obj.time := time this;
           Obj.timestamp := None;
           Obj.bits := bits this;
           Obj.nonce := nonce this;
           Obj.solution := JUndefined |}, this).

(** BlockHeader._from *)
Definition _from (arg : Arg) : result Obj.t :=
  match arg with
  | ArgBuffer b =>
      do '(info, _) <- _fromBufferReader (newBufferReader b);
      Ok info
  | ArgObject o => Ok (_fromObject o)
  | ArgOther => Throw TypeError
  end.

(** The constructor [new BlockHeader(arg)]. *)
Definition new_BlockHeader (arg : Arg) : result BlockHeader :=
  do info <- _from arg;
  let this :=
    {| version := Obj.version info;
       prevHash := Obj.prevHash info;
       merkleRoot := Obj.merkleRoot info;
       height := Obj.height info;
       reserved := Obj.reserved info;
       time := Obj.time info;
       timestamp := Obj.time info;
       bits := Obj.bits info;
       nonce := Obj.nonce info;
       solution := Obj.solution info;
       _id := None |} in
  if truthy (Obj.hash info) then
    do '(hash, this) <- get_id this;
    if strict_eq_string hash (Obj.hash info) then Ok this
    else Throw InvalidState
  else Ok this.

(** BlockHeader.fromObject *)
Definition fromObject (obj : Obj.t) : result BlockHeader :=
  let info := _fromObject obj in
  new_BlockHeader (ArgObject info).

(** BlockHeader.fromBuffer *)
Definition fromBuffer (b : Buffer) : result BlockHeader :=
  do '(info, _) <- _fromBufferReader (newBufferReader b);
  new_BlockHeader (ArgObject info).

(** BlockHeader.prototype.validProofOfWork *)
Definition validProofOfWork (this : BlockHeader)
  : result (bool * BlockHeader) :=
  do '(id, this) <- get_id this;
  let pow := BN_of_hex id in
  let target := getTargetDifficulty this None in
  if BN_cmp pow target >? 0 then Ok (false, this)
  else Ok (true, this).

End WithHash.

(* ------------------------------------------------------------------ *)
(** ** What the properties are stated with *)

Definition u32 (z : Z) : Prop := 0 <= z < 2 ^ 32.

(** [v] is a Buffer of [n] bytes. *)
Definition buffer_of (n : nat) (v : jsval) : Prop :=
  exists b, v = JBuffer b /\ List.length b = n.

(** A legacy record: no height, reserved or solution, a 32-bit nonce, and
    a time that the detector, which the decoder applies to the shared
    position, reads as legacy too. *)
Definition valid_legacy (h : BlockHeader) : Prop :=
  height h = None /\ reserved h = JUndefined /\ solution h = JUndefined /\
  (exists n, nonce h = JNumber n /\ u32 n) /\
  _isBitcoinQuark (Some (time h)) = false.

(** An extended record: a 32-bit height that the detector reads as
    extended, 28 reserved bytes, a nonce of 32 bytes, and a solution whose
    length a number holds exactly. *)
Definition valid_extended (h : BlockHeader) : Prop :=
  (exists n, height h = Some n /\ u32 n) /\
  _isBitcoinQuark (height h) = true /\
  buffer_of 28 (reserved h) /\ buffer_of 32 (nonce h) /\
  (exists s, solution h = JBuffer s /\ Z.of_nat (List.length s) <= 2 ^ 53).

(** The invariants of the data model: the widths of the fields, and one
    layout on which the encoder and the decoder agree. *)
Definition valid_header (h : BlockHeader) : Prop :=
  u32 (version h) /\ buffer_of 32 (prevHash h) /\
  buffer_of 32 (merkleRoot h) /\ u32 (time h) /\ u32 (bits h) /\
  (valid_legacy h \/ valid_extended h).

(** The fields of the decoded object are those of the instance. *)
Definition same_fields (info : Obj.t) (h : BlockHeader) : Prop :=
  Obj.version info = version h /\
  Obj.prevHash info = prevHash h /\
  Obj.merkleRoot info = merkleRoot h /\
  Obj.height info = height h /\
  Obj.reserved info = reserved h /\
  Obj.time info = time h /\
  Obj.bits info = bits h /\
  Obj.nonce info = nonce h /\
  Obj.solution info = solution h.

(** The reader stands before the bytes [l]: its cursor is inside the
    buffer and [l] is what is left to read. *)
Definition reader_at (br : BufferReader) (l : Buffer) : Prop :=
  (pos br <= List.length (buf br))%nat /\ skipn (pos br) (buf br) = l.

Definition advance (br : BufferReader) (n : nat) : BufferReader :=
  {| buf := buf br; pos := pos br + n |}.

(** The decoder as the specification words it: mantissa [bits & 0x00ffffff],
    exponent [bits >> 24], the mantissa shifted left by [8 * (exponent - 3)]
    positions when that count is positive and left as it is otherwise. *)
Definition decodeCompactTarget (bits : Z) : Z :=
  Z.land bits 0x00ffffff * 2 ^ Z.max 0 (8 * (Z.shiftr bits 24 - 3)).

(** The string the specification describes: the digits [s] with a decimal
    point [k] digits from the end. *)
Definition point_from_end (k : nat) (s : string) : string :=
  (substring 0 (String.length s - k) s ++ "."
     ++ substring (String.length s - k) k s)%string.

(** The digits of floor((decodeCompactTarget genesisBits * 10^8) /
    decodeCompactTarget bits). *)
Definition ratio_digits (genesisBits bits : Z) : string :=
  BN_toString10
    (decodeCompactTarget genesisBits * 10 ^ 8 / decodeCompactTarget bits).

(* ------------------------------------------------------------------ *)
(** ** Sample headers and objects *)

(** A legacy header: the genesis block of Bitcoin. *)
Definition legacy_genesis : BlockHeader :=
  {| version := 1;
     prevHash := JBuffer (repeat x00 32);
     merkleRoot := JBuffer (fromHex
       "3ba3edfd7a7b12b27ac72c3e67768f617fc81bc3888a51323a9fb8aa4b1e5e4a");
     height := None;
     reserved := JUndefined;
     time := 1231006505;
     timestamp := 1231006505;
     bits := 0x1d00ffff;
     nonce := JNumber 2083236893;
     solution := JUndefined;
     _id := None |}.

(** A legacy record of the right widths whose time the detector reads as a
    height: the genesis header with its time set to one second. *)
Definition early_legacy : BlockHeader :=
  assign legacy_genesis (SetTime 1).

(** An extended header of the fork, at height 630000 with a two-byte
    solution. *)
Definition quark_sample : BlockHeader :=
  {| version := 536870912;
     prevHash := JBuffer (repeat x11 32);
     merkleRoot := JBuffer (repeat x22 32);
     height := Some 630000;
     reserved := JBuffer (repeat x00 28);
     time := 1510000000;
     timestamp := 1510000000;
     bits := 0x1f07ffff;
     nonce := JBuffer (x01 :: repeat x00 31);
     solution := JBuffer [xab; xcd];
     _id := None |}.

(** An extended header with the compact target of the regression-test
    network, 0x207fffff. *)
Definition regtest_sample : BlockHeader :=
  assign quark_sample (SetBits 0x207fffff).

(** The same object at height 630000. *)
Definition quark_object : Obj.t :=
  {| Obj.hash := JUndefined;
     Obj.version := 536870912;
     Obj.prevHash := JString (toHex (repeat x11 32));
     Obj.merkleRoot := JString (toHex (repeat x22 32));
     Obj.height := Some 630000;
     Obj.reserved := JString (toHex (repeat x00 27 ++ [x07]));
     Obj.time := 1510000000;
     Obj.timestamp := None;
     Obj.bits := 0x1f07ffff;
     Obj.nonce := JString (toHex (repeat x00 31 ++ [x01]));
     Obj.solution := JString "abcd" |}.

(** A plain object that carries the fields of the extended layout in
    display order at height 0, which the detector reads as legacy. *)
Definition height_zero_object : Obj.t :=
  {| Obj.hash := JUndefined;
     Obj.version := 536870912;
     Obj.prevHash := JString (toHex (repeat x11 32));
     Obj.merkleRoot := JString (toHex (repeat x22 32));
     Obj.height := Some 0;
     Obj.reserved := JString (toHex (repeat x00 27 ++ [x07]));
     Obj.time := 1510000000;
     Obj.timestamp := None;
     Obj.bits := 0x1f07ffff;
     Obj.nonce := JString (toHex (repeat x00 31 ++ [x01]));
     Obj.solution := JString "abcd" |}.

(** A stand-in for the double hash where a concrete function is needed:
    the first 32 bytes of the input, padded with zeros. *)
Definition prefix_hash (b : Buffer) : Buffer :=
  firstn 32 (b ++ repeat x00 32).

(* ------------------------------------------------------------------ *)
(** ** The other entry points *)

(** BlockHeader.Constants *)
Definition START_OF_HEADER : nat := 8.
Definition MAX_TIME_OFFSET : Z := 2 * 60 * 60.
Definition LARGEST_HASH : Z :=
  BN_of_hex
    "10000000000000000000000000000000000000000000000000000000000000000".

(** The fields the constructor assigns from [info], before the hash is
    looked at. *)
Definition instance_of (info : Obj.t) : BlockHeader :=
  {| version := Obj.version info;
     prevHash := Obj.prevHash info;
     merkleRoot := Obj.merkleRoot info;
     height := Obj.height info;
     reserved := Obj.reserved info;
     time := Obj.time info;
     timestamp := Obj.time info;
     bits := Obj.bits info;
     nonce := Obj.nonce info;
     solution := Obj.solution info;
     _id := None |}.

(** The instance a constructor builds from the fields of [h]: the same
    fields, [timestamp] a copy of [time], and an empty cache. *)
Definition rebuilt (h : BlockHeader) : BlockHeader :=
  {| version := version h;
     prevHash := prevHash h;
     merkleRoot := merkleRoot h;
     height := height h;
     reserved := reserved h;
     time := time h;
     timestamp := time h;
     bits := bits h;
     nonce := nonce h;
     solution := solution h;
     _id := None |}.

(** BlockHeader.prototype.toString *)
Definition toString (this : BlockHeader) : result string :=
  do b <- toBuffer this;
  Ok (toHex b).

(** The argument of [fromRawBlock]: a Buffer, or a string that
    [new Buffer(data, 'binary')] turns into one byte per character. *)
Inductive RawBlock : Type :=
| RawBuffer (b : Buffer)
| RawBinary (s : string).

Definition binary_bytes (s : string) : Buffer :=
  map byte_of_ascii (list_ascii_of_string s).

(** BlockHeader.prototype.validTimestamp; [now] is [new Date().getTime()],
    the clock in milliseconds, and [Math.round(now / 1000)] rounds halves
    upwards. *)
Definition validTimestamp (now : Z) (this : BlockHeader) : bool :=
  let currentTime := (now + 500) / 1000 in
  if time this >? currentTime + MAX_TIME_OFFSET then false else true.

Section EntryPoints.

Variable sha256sha256 : Buffer -> Buffer.

(** BlockHeader.fromBufferReader: the header, and the reader as the call
    leaves it. *)
Definition fromBufferReader (br : BufferReader)
  : result (BlockHeader * BufferReader) :=
  do '(info, br) <- _fromBufferReader br;
  do h <- new_BlockHeader sha256sha256 (ArgObject info);
  Ok (h, br).

(** BlockHeader.fromRawBlock *)
Definition fromRawBlock (data : RawBlock) : result BlockHeader :=
  let data := match data with
              | RawBuffer b => b
              | RawBinary s => binary_bytes s
              end in
  let br := newBufferReader data in
  let br := {| buf := buf br; pos := START_OF_HEADER |} in
  do '(info, _) <- _fromBufferReader br;
  new_BlockHeader sha256sha256 (ArgObject info).

(** BlockHeader.fromString *)
Definition fromString (str : string) : result BlockHeader :=
  let buf := fromHex str in
  fromBuffer sha256sha256 buf.

(** BlockHeader.prototype.inspect *)
Definition inspect (this : BlockHeader) : result (string * BlockHeader) :=
  do '(id, this) <- get_id sha256sha256 this;
  Ok (("<BlockHeader " ++ id ++ ">")%string, this).

End EntryPoints.

(** The bytes the varint of [n] takes. *)
Definition varint_size (n : Z) : nat :=
  if n <? 253 then 1
  else if n <? 65536 then 3
  else if n <? 4294967296 then 5
  else 9.

(** What the reader has not read yet. *)
Definition remaining (br : BufferReader) : Buffer :=
  skipn (pos br) (buf br).

(** The 80 bytes of the genesis header and the 143 bytes of the extended
    sample. *)
Definition legacy_genesis_bytes : Buffer :=
  Eval vm_compute in
    match toBuffer legacy_genesis with
    | Ok b => b
    | Throw _ => []
    end.

Definition quark_sample_bytes : Buffer :=
  Eval vm_compute in
    match toBuffer quark_sample with
    | Ok b => b
    | Throw _ => []
    end.

(** The genesis header with a cached id, then given another version. *)
Definition stale_genesis : BlockHeader :=
  assign (with_id legacy_genesis "00") (SetVersion 2).

(** A legacy header whose bits, 0x21010000, decode to LARGEST_HASH. *)
Definition easiest_header : BlockHeader :=
  assign legacy_genesis (SetBits 0x21010000).

(* ------------------------------------------------------------------ *)
(** ** Bytes *)

Lemma Z_of_byte_of_Z (z : Z) : Z_of_byte (byte_of_Z z) = z mod 256.
Proof.
  unfold Z_of_byte, byte_of_Z.
  assert (Hr : 0 <= z mod 256 < 256) by (apply Z.mod_pos_bound; lia).
  destruct (Byte.of_N (Z.to_N (z mod 256))) as [b|] eqn:E.
  - apply Byte.to_of_N in E. rewrite E. lia.
  - apply Byte.of_N_None_iff in E. lia.
Qed.

Lemma le_bytes_length (k : nat) (n : Z) : List.length (le_bytes k n) = k.
Proof.
  revert n. induction k as [|k IH]; intro n; simpl; [reflexivity|].
  now rewrite IH.
Qed.

Lemma le_value_le_bytes (k : nat) (n : Z) :
  0 <= n < 256 ^ Z.of_nat k -> le_value (le_bytes k n) = n.
Proof.
  revert n. induction k as [|k IH]; intros n Hn.
  - simpl in *. lia.
  - cbn [le_bytes le_value]. rewrite Z_of_byte_of_Z, Z.mod_mod by lia.
    rewrite IH.
    + pose proof (Z.div_mod n 256). lia.
    + rewrite Nat2Z.inj_succ, Z.pow_succ_r in Hn by lia.
      split; [apply Z.div_pos; lia|].
      apply Z.div_lt_upper_bound; lia.
Qed.

(* ------------------------------------------------------------------ *)
(** ** The layout detector *)

(** C1.  For every 32-bit value [c] the detector answers legacy (false)
    when [c] is zero, legacy when [c] is strictly greater than
    LOCKTIME_THRESHOLD, and extended (true) in every other case. *)
Theorem isBitcoinQuark_three_way (c : Z) :
  0 <= c < 2 ^ 32 ->
  (c = 0 -> _isBitcoinQuark (Some c) = false) /\
  (c > LOCKTIME_THRESHOLD -> _isBitcoinQuark (Some c) = false) /\
  (c <> 0 -> c <= LOCKTIME_THRESHOLD -> _isBitcoinQuark (Some c) = true).
Proof.
  intros _. unfold _isBitcoinQuark.
  destruct (Z.eqb_spec c 0) as [E|E];
    destruct (Z.gtb_spec c LOCKTIME_THRESHOLD) as [G|G];
    repeat split; intros; try reflexivity; lia.
Qed.

Lemma isBitcoinQuark_three_way_witness :
  _isBitcoinQuark (Some 0) = false /\
  _isBitcoinQuark (Some 4294967295) = false /\
  _isBitcoinQuark (Some 1) = true.
Proof.
  split; [|split].
  - refine (proj1 (isBitcoinQuark_three_way 0 _) eq_refl). lia.
  - refine (proj1 (proj2 (isBitcoinQuark_three_way 4294967295 _)) eq_refl).
    lia.
  - refine (proj2 (proj2 (isBitcoinQuark_three_way 1 _)) _ _);
      [lia | discriminate | discriminate].
Defined.

(** C2, the input at which the claim fails: at LOCKTIME_THRESHOLD itself
    the comparison [arg > LOCKTIME_THRESHOLD] is false, so the detector
    answers extended, not legacy. *)
Lemma isBitcoinQuark_at_threshold :
  _isBitcoinQuark (Some LOCKTIME_THRESHOLD) = true.
Proof. reflexivity. Qed.

(** C2, amended.  The detector answers legacy for 0 and for
    LOCKTIME_THRESHOLD + 1, and extended for LOCKTIME_THRESHOLD, for
    LOCKTIME_THRESHOLD - 1 and for every value strictly between 0 and
    LOCKTIME_THRESHOLD. *)
Theorem isBitcoinQuark_boundary :
  _isBitcoinQuark (Some 0) = false /\
  _isBitcoinQuark (Some LOCKTIME_THRESHOLD) = true /\
  _isBitcoinQuark (Some (LOCKTIME_THRESHOLD + 1)) = false /\
  _isBitcoinQuark (Some (LOCKTIME_THRESHOLD - 1)) = true /\
  (forall c, 0 < c < LOCKTIME_THRESHOLD -> _isBitcoinQuark (Some c) = true).
Proof.
  repeat split; try reflexivity.
  intros c Hc. unfold _isBitcoinQuark.
  destruct (Z.eqb_spec c 0); [lia|].
  destruct (Z.gtb_spec c LOCKTIME_THRESHOLD); [lia | reflexivity].
Qed.

Lemma isBitcoinQuark_boundary_witness :
  _isBitcoinQuark (Some 630000) = true.
Proof.
  apply (proj2 (proj2 (proj2 (proj2 isBitcoinQuark_boundary)))).
  unfold LOCKTIME_THRESHOLD. lia.
Defined.

(* ------------------------------------------------------------------ *)
(** ** The compact target *)

Lemma double_times_pow (n : nat) (t : Z) :
  double_times n t = t * 2 ^ Z.of_nat n.
Proof.
  revert t. induction n as [|n IH]; intro t.
  - simpl. lia.
  - cbn [double_times]. rewrite IH, Nat2Z.inj_succ, Z.pow_succ_r by lia. lia.
Qed.

Lemma toUint32_small (b : Z) : 0 <= b < 2 ^ 32 -> toUint32 b = b.
Proof. intro H. unfold toUint32. now apply Z.mod_small. Qed.

Lemma land_toInt32_mantissa (b : Z) :
  Z.land (toInt32 b) 0xffffff = Z.land b 0xffffff.
Proof.
  change 0xffffff with (Z.ones 24). rewrite !Z.land_ones by lia.
  unfold toInt32.
  assert (E : (b mod 2 ^ 32) mod 2 ^ 24 = b mod 2 ^ 24).
  { apply Z.mod_mod_divide. exists (2 ^ 8). reflexivity. }
  destruct (b mod 2 ^ 32 <? 2 ^ 31); [exact E|].
  replace (b mod 2 ^ 32 - 2 ^ 32) with (b mod 2 ^ 32 + (- 2 ^ 8) * 2 ^ 24)
    by lia.
  now rewrite Z_mod_plus_full.
Qed.

(** The steps of [getTargetDifficulty] on the value it settles on. *)
Lemma compact_steps (b : Z) :
  0 <= b < 2 ^ 32 ->
  double_times (Z.to_nat (8 * (Z.shiftr (toUint32 b) 24 - 3)))
    (Z.land (toInt32 b) 0xffffff)
  = decodeCompactTarget b.
Proof.
  intro H. rewrite double_times_pow, toUint32_small, land_toInt32_mantissa by exact H.
  unfold decodeCompactTarget. f_equal. f_equal.
  destruct (Z.le_gt_cases (8 * (Z.shiftr b 24 - 3)) 0) as [L|G].
  - rewrite Z.max_l by lia. lia.
  - rewrite Z.max_r by lia. lia.
Qed.

Lemma getTargetDifficulty_own_bits (this : BlockHeader) :
  u32 (bits this) ->
  getTargetDifficulty this None = decodeCompactTarget (bits this).
Proof. intro H. unfold getTargetDifficulty. now apply compact_steps. Qed.

Lemma getTargetDifficulty_argument (this : BlockHeader) (b : Z) :
  u32 b -> b <> 0 ->
  getTargetDifficulty this (Some b) = decodeCompactTarget b.
Proof.
  intros H Hnz. unfold getTargetDifficulty.
  destruct (Z.eqb_spec b 0); [contradiction|].
  now apply compact_steps.
Qed.

(** C4, the input at which the claim fails: [bits = bits || this.bits]
    replaces an argument 0 by the header's own field, so on the genesis
    header [getTargetDifficulty(0)] is the target of 0x1d00ffff and not
    the mantissa 0 of the argument. *)
Lemma getTargetDifficulty_zero_argument :
  getTargetDifficulty legacy_genesis (Some 0) = 65535 * 2 ^ 208 /\
  decodeCompactTarget 0 = 0.
Proof. split; vm_compute; reflexivity. Qed.

(** C4, amended.  For every 32-bit value [b] and every header whose own
    [bits] is a 32-bit value, [getTargetDifficulty(b)] is
    [mantissa * 2 ^ max(0, 8 * (exponent - 3))] in exact integer
    arithmetic, with mantissa and exponent taken from [b] when [b] is not
    zero and from the header's [bits] when [b] is zero or omitted; when
    [8 * (exponent - 3)] is zero or negative the result is the mantissa. *)
Theorem getTargetDifficulty_decodes (this : BlockHeader) (b : Z) :
  0 <= b < 2 ^ 32 ->
  0 <= bits this < 2 ^ 32 ->
  (b <> 0 -> getTargetDifficulty this (Some b) = decodeCompactTarget b) /\
  getTargetDifficulty this (Some 0) = decodeCompactTarget (bits this) /\
  getTargetDifficulty this None = decodeCompactTarget (bits this) /\
  (8 * (Z.shiftr b 24 - 3) <= 0 -> decodeCompactTarget b = Z.land b 0xffffff).
Proof.
  intros Hb Hbits. unfold getTargetDifficulty.
  repeat split.
  - intro Hnz. destruct (Z.eqb_spec b 0); [contradiction|].
    now apply compact_steps.
  - cbn [Z.eqb]. now apply compact_steps.
  - now apply compact_steps.
  - intro Hle. unfold decodeCompactTarget. rewrite Z.max_l by exact Hle.
    change (2 ^ 0) with 1. lia.
Qed.

Lemma getTargetDifficulty_decodes_witness :
  getTargetDifficulty legacy_genesis (Some 0x1f7fffff)
    = decodeCompactTarget 0x1f7fffff /\
  getTargetDifficulty legacy_genesis None = decodeCompactTarget 0x1d00ffff /\
  decodeCompactTarget 0x0212ab00 = 0x12ab00.
Proof.
  assert (H1 : 0 <= 0x1f7fffff < 2 ^ 32) by lia.
  assert (H2 : 0 <= 0x0212ab00 < 2 ^ 32) by lia.
  assert (H3 : 0 <= bits legacy_genesis < 2 ^ 32) by (cbn; lia).
  split; [|split].
  - refine (proj1 (getTargetDifficulty_decodes legacy_genesis _ H1 H3) _).
    discriminate.
  - exact (proj1 (proj2 (proj2
             (getTargetDifficulty_decodes legacy_genesis _ H1 H3)))).
  - refine (proj2 (proj2 (proj2
             (getTargetDifficulty_decodes legacy_genesis _ H2 H3))) _).
    vm_compute. discriminate.
Defined.

(* ------------------------------------------------------------------ *)
(** ** The reader on the bytes of the writer *)

Lemma reader_at_new (b : Buffer) : reader_at (newBufferReader b) b.
Proof. split; cbn; [lia | reflexivity]. Qed.

Lemma firstn_exact {A : Type} (b rest : list A) :
  firstn (List.length b) (b ++ rest) = b.
Proof. induction b as [|x b IH]; cbn; [now destruct rest | now rewrite IH]. Qed.

Lemma skipn_exact {A : Type} (b rest : list A) :
  skipn (List.length b) (b ++ rest) = rest.
Proof. induction b as [|x b IH]; cbn; [reflexivity | exact IH]. Qed.

Lemma read_at (br : BufferReader) (b rest : Buffer) (n : nat) :
  reader_at br (b ++ rest) -> List.length b = n ->
  read br n = Ok (b, advance br n) /\ reader_at (advance br n) rest.
Proof.
  intros [Hpos Hrem] <-.
  assert (Hlen : (pos br + List.length b <= List.length (buf br))%nat).
  { assert (E : List.length (skipn (pos br) (buf br))
                = List.length (b ++ rest)) by now rewrite Hrem.
    rewrite length_skipn, length_app in E. lia. }
  split.
  - unfold read. destruct (Nat.leb_spec (pos br + List.length b)
                             (List.length (buf br))); [|lia].
    now rewrite Hrem, firstn_exact.
  - split; cbn [advance buf pos]; [exact Hlen|].
    rewrite Nat.add_comm, <- skipn_skipn, Hrem. apply skipn_exact.
Qed.

Lemma readUIntLE_at (k : nat) (br : BufferReader) (n : Z) (rest : Buffer) :
  reader_at br (le_bytes k n ++ rest) -> 0 <= n < 256 ^ Z.of_nat k ->
  readUIntLE k br = Ok (n, advance br k) /\ reader_at (advance br k) rest.
Proof.
  intros Hat Hn.
  destruct (read_at br _ rest k Hat (le_bytes_length k n)) as [E A].
  split; [|exact A].
  unfold readUIntLE. rewrite E. cbn [bind].
  now rewrite le_value_le_bytes.
Qed.

Lemma le_bytes_shift (k : nat) (n m : Z) :
  le_bytes k (n + m * 256 ^ Z.of_nat k) = le_bytes k n.
Proof.
  revert n m. induction k as [|k IH]; intros n m; [reflexivity|].
  cbn [le_bytes].
  rewrite Nat2Z.inj_succ, Z.pow_succ_r by lia.
  replace (n + m * (256 * 256 ^ Z.of_nat k))
    with (n + (m * 256 ^ Z.of_nat k) * 256) by lia.
  rewrite Z_mod_plus_full, Z.div_add by lia.
  now rewrite IH.
Qed.

Lemma le_bytes_split (a b : nat) (n : Z) :
  le_bytes (a + b) n = le_bytes a n ++ le_bytes b (n / 256 ^ Z.of_nat a).
Proof.
  revert n. induction a as [|a IH]; intro n.
  - cbn. now rewrite Z.div_1_r.
  - cbn [Nat.add le_bytes app]. rewrite IH. do 2 f_equal.
    rewrite Nat2Z.inj_succ, Z.pow_succ_r by lia.
    rewrite Z.div_div by lia. reflexivity.
Qed.

Lemma le_bytes_toInt32 (n : Z) : le_bytes 4 (toInt32 n) = le_bytes 4 n.
Proof.
  unfold toInt32.
  assert (E : le_bytes 4 (n mod 2 ^ 32) = le_bytes 4 n).
  { rewrite (Z.div_mod n (2 ^ 32)) at 2 by lia.
    rewrite Z.add_comm, Z.mul_comm.
    symmetry. apply (le_bytes_shift 4). }
  destruct (n mod 2 ^ 32 <? 2 ^ 31); [exact E|].
  rewrite <- E.
  replace (n mod 2 ^ 32 - 2 ^ 32)
    with (n mod 2 ^ 32 + (-1) * 256 ^ Z.of_nat 4) by (cbn; lia).
  apply le_bytes_shift.
Qed.

Lemma readVarintNum_at (br : BufferReader) (n : Z) (rest : Buffer) :
  reader_at br (varintBufNum n ++ rest) -> 0 <= n <= 2 ^ 53 ->
  exists br',
    readVarintNum br = Ok (n, br') /\ reader_at br' rest.
Proof.
  intros Hat Hn. unfold varintBufNum in Hat. unfold readVarintNum, readUInt8.
  destruct (Z.ltb_spec n 253) as [L1|L1].
  { destruct (readUIntLE_at 1 br n rest Hat) as [E A]; [cbn; lia|].
    rewrite E. cbn [bind].
    destruct (Z.eqb_spec n 253); [lia|].
    destruct (Z.eqb_spec n 254); [lia|].
    destruct (Z.eqb_spec n 255); [lia|].
    eauto. }
  destruct (Z.ltb_spec n 65536) as [L2|L2].
  { change (byte_of_Z 253 :: le_bytes 2 n)
      with (le_bytes 1 253 ++ le_bytes 2 n) in Hat.
    rewrite <- app_assoc in Hat.
    destruct (readUIntLE_at 1 br 253 _ Hat) as [E A]; [cbn; lia|].
    rewrite E. cbn [bind Z.eqb Pos.eqb].
    destruct (readUIntLE_at 2 _ n rest A) as [E2 A2]; [cbn; lia|].
    unfold readUInt16LE. eauto. }
  destruct (Z.ltb_spec n 4294967296) as [L3|L3].
  { change (byte_of_Z 254 :: le_bytes 4 n)
      with (le_bytes 1 254 ++ le_bytes 4 n) in Hat.
    rewrite <- app_assoc in Hat.
    destruct (readUIntLE_at 1 br 254 _ Hat) as [E A]; [cbn; lia|].
    rewrite E. cbn [bind Z.eqb Pos.eqb].
    destruct (readUIntLE_at 4 _ n rest A) as [E2 A2]; [cbn; lia|].
    unfold readUInt32LE. eauto. }
  rewrite le_bytes_toInt32 in Hat.
  change 4294967296 with (256 ^ Z.of_nat 4) in Hat.
  rewrite <- (le_bytes_split 4 4 n) in Hat.
  change (byte_of_Z 255 :: le_bytes (4 + 4) n)
    with (le_bytes 1 255 ++ le_bytes 8 n) in Hat.
  rewrite <- app_assoc in Hat.
  destruct (readUIntLE_at 1 br 255 _ Hat) as [E A]; [cbn; lia|].
  rewrite E. cbn [bind Z.eqb Pos.eqb].
  destruct (readUIntLE_at 8 _ n rest A) as [E2 A2]; [cbn; lia|].
  rewrite E2. cbn [bind].
  destruct (Z.leb_spec n (2 ^ 53)); [|lia].
  eauto.
Qed.

(* ------------------------------------------------------------------ *)
(** ** Encoding, then decoding *)

Ltac range_true :=
  match goal with
  | |- context [(0 <=? ?n) && (?n <? ?m)] =>
      replace ((0 <=? n) && (n <? m)) with true
        by (symmetry; apply andb_true_iff; split;
            [apply Z.leb_le | apply Z.ltb_lt]; cbn; lia)
  end.

Ltac read_int k :=
  match goal with
  | A : reader_at ?br (le_bytes k ?n ++ ?rest) |- _ =>
      let E := fresh "E" in
      let A' := fresh "A" in
      destruct (readUIntLE_at k br n rest A) as [E A'];
      [ cbn; lia | rewrite E; clear E A; cbn [bind] ]
  end.

Ltac read_bytes k :=
  match goal with
  | A : reader_at ?br (?b ++ ?rest) |- _ =>
      let E := fresh "E" in
      let A' := fresh "A" in
      destruct (read_at br b rest k A) as [E A'];
      [ first [ assumption | lia ] | rewrite E; clear E A; cbn [bind] ]
  end.

(** C3.  For every valid header record of either layout (the widths of
    the fields as the data model gives them, and the layout on which
    encoder and decoder agree), the encoder succeeds, and the decoder run
    on the bytes it produced returns an object whose fields are those of
    the record, having consumed every byte. *)
Theorem encode_decode_roundtrip (h : BlockHeader) :
  valid_header h ->
  exists bw,
    toBufferWriter h None = Ok bw /\
    exists info br',
      _fromBufferReader (newBufferReader (concat bw)) = Ok (info, br') /\
      same_fields info h /\ reader_at br' [].
Proof.
  destruct h as [v ph mr hg rs t ts bi no so id].
  unfold valid_header, valid_legacy, valid_extended, buffer_of, u32.
  cbn [version prevHash merkleRoot height reserved time timestamp bits
       nonce solution _id].
  intros (Hv & (p & -> & Hp) & (m & -> & Hm) & Ht & Hb & Hlay).
  unfold toBufferWriter, writeUInt32LE, writeUIntLE, write.
  cbn [version prevHash merkleRoot height reserved time timestamp bits
       nonce solution _id bind app].
  destruct Hlay as [(-> & -> & -> & (n & -> & Hn) & Hdet)
                   | ((g & -> & Hg) & Hdet & (r & -> & Hr) & (k & -> & Hk)
                      & (s & -> & Hs))].
  - cbn [_isBitcoinQuark].
    repeat (range_true; cbn [bind app]).
    eexists. split; [reflexivity|].
    unfold _fromBufferReader, readUInt32LE, concat. cbn [List.concat].
    pose proof (reader_at_new
      (le_bytes 4 v ++ p ++ m ++ le_bytes 4 t ++ le_bytes 4 bi
         ++ le_bytes 4 n ++ [])) as A.
    read_int 4%nat.
    read_bytes 32%nat.
    read_bytes 32%nat.
    read_int 4%nat.
    rewrite Hdet.
    read_int 4%nat.
    read_int 4%nat.
    eexists; eexists. split; [reflexivity|].
    split; [repeat split | assumption].
  - rewrite Hdet.
    repeat (range_true; cbn [bind app length_of]).
    unfold writeVarintNum. cbn [bind app].
    eexists. split; [reflexivity|].
    unfold _fromBufferReader, readUInt32LE, concat. cbn [List.concat].
    pose proof (reader_at_new
      (le_bytes 4 v ++ p ++ m ++ le_bytes 4 g ++ r ++ le_bytes 4 t
         ++ le_bytes 4 bi ++ k ++ varintBufNum (Z.of_nat (List.length s))
         ++ s ++ [])) as A.
    read_int 4%nat.
    read_bytes 32%nat.
    read_bytes 32%nat.
    read_int 4%nat.
    rewrite Hdet.
    read_bytes 28%nat.
    read_int 4%nat.
    read_int 4%nat.
    read_bytes 32%nat.
    match goal with
    | A : reader_at ?br (varintBufNum _ ++ _) |- _ =>
        destruct (readVarintNum_at br _ _ A) as (br' & E & A');
        [lia | rewrite E; clear E A; cbn [bind]]
    end.
    rewrite Nat2Z.id.
    read_bytes (List.length s).
    eexists; eexists. split; [reflexivity|].
    split; [repeat split | assumption].
Qed.

Lemma encode_decode_roundtrip_witness :
  (exists bw,
     toBufferWriter legacy_genesis None = Ok bw /\
     exists info br',
       _fromBufferReader (newBufferReader (concat bw)) = Ok (info, br') /\
       same_fields info legacy_genesis /\ reader_at br' []) /\
  (exists bw,
     toBufferWriter quark_sample None = Ok bw /\
     exists info br',
       _fromBufferReader (newBufferReader (concat bw)) = Ok (info, br') /\
       same_fields info quark_sample /\ reader_at br' []).
Proof.
  split.
  - apply (encode_decode_roundtrip legacy_genesis).
    unfold valid_header, valid_legacy, u32, buffer_of. cbn.
    repeat split; try lia; eauto.
    left. repeat split. exists 2083236893. split; [reflexivity | lia].
  - apply (encode_decode_roundtrip quark_sample).
    unfold valid_header, valid_extended, u32, buffer_of. cbn.
    repeat split; try lia; eauto.
    right. repeat split; eauto.
    + exists 630000. split; [reflexivity | lia].
    + exists [xab; xcd]. split; [reflexivity | cbn; lia].
Defined.

(** Without the agreement on the layout the round trip is lost: the
    encoder writes the 80 legacy bytes, the decoder takes the time for a
    height and runs out of bytes. *)
Lemma early_legacy_not_decoded :
  (exists bw,
     toBufferWriter early_legacy None = Ok bw /\
     List.length (concat bw) = 80%nat /\
     _fromBufferReader (newBufferReader (concat bw)) = Throw RangeError).
Proof. eexists. repeat split. Qed.

(* ------------------------------------------------------------------ *)
(** ** The difficulty *)

Lemma decodeCompactTarget_nonneg (b : Z) :
  0 <= b -> 0 <= decodeCompactTarget b.
Proof.
  intro H. unfold decodeCompactTarget.
  apply Z.mul_nonneg_nonneg; [|apply Z.pow_nonneg; lia].
  apply Z.land_nonneg. now left.
Qed.

Lemma slice_prefix (s : string) (k : Z) :
  0 <= k <= Z.of_nat (String.length s) ->
  slice s 0 (Some k) = substring 0 (Z.to_nat k) s.
Proof.
  intro H. unfold slice. cbn [Z.ltb Z.compare].
  destruct (Z.ltb_spec k 0); [lia|].
  rewrite Z.min_l, Z.min_l, Z.sub_0_r, Z.max_l by lia.
  reflexivity.
Qed.

Lemma slice_suffix (s : string) (k : Z) :
  0 <= k <= Z.of_nat (String.length s) ->
  slice s k None
  = substring (Z.to_nat k) (String.length s - Z.to_nat k) s.
Proof.
  intro H. unfold slice.
  destruct (Z.ltb_spec k 0); [lia|].
  rewrite Z.min_l, Z.max_l by lia.
  f_equal. lia.
Qed.

(** The layout picks the genesis constant, a zero target yields 1, and
    whenever the quotient has at least eight digits the string parsed is
    the quotient with the decimal point eight digits from its end. *)
Lemma getDifficulty_long_quotient (this : BlockHeader) :
  u32 (bits this) ->
  let genesisBits := if _isBitcoinQuark (height this)
                     then 0x1f7fffff else 0x1d00ffff in
  (decodeCompactTarget (bits this) = 0 -> getDifficulty this = NumberLit 1) /\
  (decodeCompactTarget (bits this) <> 0 ->
   (8 <= String.length (ratio_digits genesisBits (bits this)))%nat ->
   getDifficulty this
   = parseFloat (point_from_end 8 (ratio_digits genesisBits (bits this)))).
Proof.
  intros Hb genesisBits. unfold getDifficulty.
  assert (Hg : u32 genesisBits).
  { unfold genesisBits, u32. destruct (_isBitcoinQuark (height this)); lia. }
  assert (Hnz : genesisBits <> 0).
  { unfold genesisBits. destruct (_isBitcoinQuark (height this)); lia. }
  pose proof (getTargetDifficulty_argument this genesisBits Hg) as Eg.
  pose proof (getTargetDifficulty_own_bits this Hb) as Ec.
  fold QUARK_GENESIS_BITS GENESIS_BITS in genesisBits.
  change (if _isBitcoinQuark (height this)
          then QUARK_GENESIS_BITS else GENESIS_BITS) with genesisBits.
  rewrite Ec, (Eg Hnz). split.
  - intros ->. reflexivity.
  - intros Hne Hlen.
    destruct (Z.eqb_spec (decodeCompactTarget (bits this)) 0);
      [contradiction|].
    rewrite Z.quot_div_nonneg.
    2:{ apply Z.mul_nonneg_nonneg; [|lia].
        apply decodeCompactTarget_nonneg. unfold u32 in Hg. lia. }
    2:{ pose proof (decodeCompactTarget_nonneg (bits this)).
        unfold u32 in Hb. lia. }
    fold (ratio_digits genesisBits (bits this)).
    set (s := ratio_digits genesisBits (bits this)) in *.
    rewrite slice_prefix, slice_suffix by lia.
    unfold point_from_end.
    replace (Z.to_nat (Z.of_nat (String.length s) - 8))
      with (String.length s - 8)%nat by lia.
    replace (String.length s - (String.length s - 8))%nat with 8%nat by lia.
    reflexivity.
Qed.

(** C5, the header on which the code departs from the claim.  On the
    extended header with bits 0x207fffff the quotient is 390625, six
    digits; [decimalPos] is -2, both slices count from the end, and the
    string parsed is "3906.25", the decimal point two digits from the end
    and not eight. *)
Theorem getDifficulty_short_quotient :
  _isBitcoinQuark (height regtest_sample) = true /\
  ratio_digits QUARK_GENESIS_BITS (bits regtest_sample) = "390625"%string /\
  getDifficulty regtest_sample = parseFloat "3906.25" /\
  point_from_end 2 "390625" = "3906.25"%string.
Proof. repeat split; vm_compute; reflexivity. Qed.

(* ------------------------------------------------------------------ *)
(** ** Construction from a plain object *)

(** C7, the input at which the claim fails: the conversions of reserved
    and solution stand under [if (isBitcoinQuark)], so at height 0 the
    hexadecimal strings are stored as they came, neither decoded nor
    reversed. *)
Lemma fromObject_height_zero_keeps_strings :
  isString (Obj.reserved height_zero_object) = true /\
  Obj.reserved (_fromObject height_zero_object)
  = Obj.reserved height_zero_object /\
  Obj.solution (_fromObject height_zero_object) = JString "abcd".
Proof. repeat split. Qed.

(** C7, amended.  [_fromObject] stores a hexadecimal string given for
    prevHash or merkleRoot decoded and byte-reversed; when the detector
    reads the supplied height as extended it stores a string given for
    reserved decoded and byte-reversed and a string given for solution
    decoded without reversal; when the detector reads the height as legacy
    it stores reserved and solution as supplied; a value of these fields
    or of nonce that is no string, and hash, version, height, time and
    bits, are stored unchanged. *)
Theorem fromObject_conversions (data : Obj.t) :
  let info := _fromObject data in
  (forall s, Obj.prevHash data = JString s ->
             Obj.prevHash info = JBuffer (reverse (fromHex s))) /\
  (forall s, Obj.merkleRoot data = JString s ->
             Obj.merkleRoot info = JBuffer (reverse (fromHex s))) /\
  (_isBitcoinQuark (Obj.height data) = true ->
   (forall s, Obj.reserved data = JString s ->
              Obj.reserved info = JBuffer (reverse (fromHex s))) /\
   (forall s, Obj.solution data = JString s ->
              Obj.solution info = JBuffer (fromHex s))) /\
  (_isBitcoinQuark (Obj.height data) = false ->
   Obj.reserved info = Obj.reserved data /\
   Obj.solution info = Obj.solution data) /\
  (isString (Obj.prevHash data) = false ->
   Obj.prevHash info = Obj.prevHash data) /\
  (isString (Obj.merkleRoot data) = false ->
   Obj.merkleRoot info = Obj.merkleRoot data) /\
  (isString (Obj.reserved data) = false ->
   Obj.reserved info = Obj.reserved data) /\
  (isString (Obj.solution data) = false ->
   Obj.solution info = Obj.solution data) /\
  (isString (Obj.nonce data) = false ->
   Obj.nonce info = Obj.nonce data) /\
  Obj.hash info = Obj.hash data /\
  Obj.version info = Obj.version data /\
  Obj.height info = Obj.height data /\
  Obj.time info = Obj.time data /\
  Obj.bits info = Obj.bits data.
Proof.
  intro info. subst info. unfold _fromObject.
  cbn [Obj.hash Obj.version Obj.prevHash Obj.merkleRoot Obj.height
       Obj.reserved Obj.time Obj.timestamp Obj.bits Obj.nonce Obj.solution].
  repeat split; try reflexivity.
  - intros s ->. reflexivity.
  - intros s ->. reflexivity.
  - intros s ->. rewrite H. reflexivity.
  - intros s ->. rewrite H. reflexivity.
  - rewrite H. reflexivity.
  - rewrite H. reflexivity.
  - intros ->. reflexivity.
  - intros ->. reflexivity.
  - intros ->. now rewrite andb_false_r.
  - intros ->. now rewrite andb_false_r.
Qed.

Lemma fromObject_conversions_witness :
  Obj.prevHash (_fromObject quark_object) = JBuffer (repeat x11 32) /\
  Obj.reserved (_fromObject quark_object)
  = JBuffer (x07 :: repeat x00 27) /\
  Obj.solution (_fromObject quark_object) = JBuffer [xab; xcd].
Proof.
  destruct (fromObject_conversions quark_object)
    as (Hp & _ & Hext & _).
  destruct (Hext eq_refl) as [Hr Hs].
  split; [|split].
  - exact (Hp _ eq_refl).
  - exact (Hr _ eq_refl).
  - exact (Hs _ eq_refl).
Defined.

(* ------------------------------------------------------------------ *)
(** ** The id and what depends on it *)

Lemma prefix_hash_length (b : Buffer) : List.length (prefix_hash b) = 32%nat.
Proof.
  unfold prefix_hash. rewrite length_firstn, length_app, repeat_length. lia.
Qed.

Lemma assign_keeps_id (h : BlockHeader) (a : Assignment) :
  _id (assign h a) = _id h.
Proof. destruct a; reflexivity. Qed.

Lemma assign_all_keeps_id (l : list Assignment) (h : BlockHeader) :
  _id (assign_all h l) = _id h.
Proof.
  revert h. induction l as [|a l IH]; intro h; [reflexivity|].
  unfold assign_all in *. cbn [fold_left]. now rewrite IH, assign_keeps_id.
Qed.

Lemma toHex_truthy (b : Buffer) :
  b <> [] -> truthy (JString (toHex b)) = true.
Proof. destruct b as [|x b]; [congruence | reflexivity]. Qed.

Section Hashing.

Variable sha256sha256 : Buffer -> Buffer.

Lemma get_id_cached (h : BlockHeader) (s : string) :
  _id h = Some s -> truthy (JString s) = true ->
  get_id sha256sha256 h = Ok (s, h).
Proof. intros E T. unfold get_id. now rewrite E, T. Qed.

Lemma get_id_fresh (h : BlockHeader) (b : Buffer) :
  _id h = None -> toBuffer h = Ok b ->
  get_id sha256sha256 h
  = Ok (toHex (reverse (sha256sha256 b)),
        with_id h (toHex (reverse (sha256sha256 b)))).
Proof.
  intros E T. unfold get_id, _getHash. rewrite E, T. reflexivity.
Qed.

(** A read of the id changes nothing but the cache. *)
Lemma get_id_fields (h h' : BlockHeader) (s : string) :
  get_id sha256sha256 h = Ok (s, h') -> h' = h \/ h' = with_id h s.
Proof.
  unfold get_id, _getHash.
  destruct (_id h) as [c|]; [destruct (truthy (JString c))|];
    destruct (toBuffer h); cbn [bind]; intro E; inversion E; auto.
Qed.

Lemma get_id_bits (h h' : BlockHeader) (s : string) :
  get_id sha256sha256 h = Ok (s, h') -> bits h' = bits h.
Proof. intro E. destruct (get_id_fields _ _ _ E) as [-> | ->]; reflexivity. Qed.

(** C6.  Whenever the id of a header can be read, [validProofOfWork]
    returns, and it returns true if and only if the id, parsed as a
    hexadecimal big integer, is at most the target decoded from the
    header's bits. *)
Theorem validProofOfWork_iff (h h' : BlockHeader) (id : string) :
  u32 (bits h) ->
  get_id sha256sha256 h = Ok (id, h') ->
  exists r,
    validProofOfWork sha256sha256 h = Ok (r, h') /\
    (r = true <-> BN_of_hex id <= decodeCompactTarget (bits h)).
Proof.
  intros Hb E. unfold validProofOfWork. rewrite E. cbn [bind].
  assert (Hb' : u32 (bits h')) by now rewrite (get_id_bits _ _ _ E).
  rewrite (getTargetDifficulty_own_bits h' Hb').
  rewrite (get_id_bits _ _ _ E).
  unfold BN_cmp.
  destruct (Z.compare_spec (BN_of_hex id) (decodeCompactTarget (bits h)))
    as [C|C|C]; cbn [Z.gtb Z.compare Z.opp];
    eexists; (split; [reflexivity|]); split; intro; try lia;
    try reflexivity; discriminate.
Qed.

(** C10.  An assignment to [id] or to [hash] returns the instance as it
    was, whatever the value; the next read is the read there would have
    been without it, and on an instance with an empty cache it is the
    hexadecimal text of the reversed double hash of the serialised
    header. *)
Theorem id_assignment_noop (h : BlockHeader) (v : jsval) :
  assign h (SetIdProperty v) = h /\
  assign h (SetHashProperty v) = h /\
  get_id sha256sha256 (assign h (SetIdProperty v)) = get_id sha256sha256 h /\
  get_id sha256sha256 (assign h (SetHashProperty v))
  = get_id sha256sha256 h /\
  (forall b, _id h = None -> toBuffer h = Ok b ->
     get_id sha256sha256 (assign h (SetIdProperty v))
     = Ok (toHex (reverse (sha256sha256 b)),
           with_id h (toHex (reverse (sha256sha256 b))))).
Proof.
  repeat split. intros b E T. now apply get_id_fresh.
Qed.

Section HashLength.

(** The double SHA-256 is 32 bytes long. *)
Hypothesis sha256sha256_length :
  forall b, List.length (sha256sha256 b) = 32%nat.

Lemma id_truthy (b : Buffer) :
  truthy (JString (toHex (reverse (sha256sha256 b)))) = true.
Proof.
  apply toHex_truthy. intro E.
  assert (L : List.length (reverse (sha256sha256 b)) = 32%nat)
    by (unfold reverse; now rewrite length_rev).
  rewrite E in L. discriminate L.
Qed.

(** C9.  The first read of the id of a header that serialises computes
    the hexadecimal text of the byte-reversed double hash of the
    serialised header and stores it in the instance; after any sequence
    of assignments to the fields (and to id or hash) a read returns that
    stored value and leaves the instance as it is, whatever the hash
    function would now compute. *)
Theorem id_computed_once (h : BlockHeader) (b : Buffer) :
  _id h = None -> toBuffer h = Ok b ->
  let s := toHex (reverse (sha256sha256 b)) in
  get_id sha256sha256 h = Ok (s, with_id h s) /\
  _id (with_id h s) = Some s /\
  forall (l : list Assignment) (other_hash : Buffer -> Buffer),
    get_id other_hash (assign_all (with_id h s) l)
    = Ok (s, assign_all (with_id h s) l).
Proof.
  intros E T s. split; [now apply get_id_fresh|].
  split; [reflexivity|].
  intros l other_hash. unfold get_id.
  rewrite assign_all_keeps_id. cbn [with_id _id].
  subst s. now rewrite id_truthy.
Qed.

End HashLength.

End Hashing.

Lemma validProofOfWork_iff_witness :
  exists id h' r,
    get_id prefix_hash legacy_genesis = Ok (id, h') /\
    validProofOfWork prefix_hash legacy_genesis = Ok (r, h') /\
    (r = true <-> BN_of_hex id <= decodeCompactTarget (bits legacy_genesis)).
Proof.
  destruct (get_id prefix_hash legacy_genesis) as [[id h']|e] eqn:E;
    [|vm_compute in E; discriminate E].
  assert (Hb : u32 (bits legacy_genesis)) by (unfold u32; cbn; lia).
  destruct (validProofOfWork_iff prefix_hash legacy_genesis h' id Hb E)
    as (r & V & I).
  exists id, h', r. auto.
Defined.

Lemma id_assignment_noop_witness :
  exists b,
    toBuffer legacy_genesis = Ok b /\
    get_id prefix_hash (assign legacy_genesis (SetIdProperty (JString "00")))
    = Ok (toHex (reverse (prefix_hash b)),
          with_id legacy_genesis (toHex (reverse (prefix_hash b)))).
Proof.
  destruct (toBuffer legacy_genesis) as [b|e] eqn:T;
    [|vm_compute in T; discriminate T].
  exists b. split; [reflexivity|].
  exact (proj2 (proj2 (proj2 (proj2
           (id_assignment_noop prefix_hash legacy_genesis (JString "00")))))
           b eq_refl T).
Defined.

Lemma id_computed_once_witness :
  exists b s h1,
    toBuffer legacy_genesis = Ok b /\
    get_id prefix_hash legacy_genesis = Ok (s, h1) /\
    get_id prefix_hash
      (assign_all h1 [SetBits 0; SetNonce (JString "x"); SetTime 1])
    = Ok (s, assign_all h1 [SetBits 0; SetNonce (JString "x"); SetTime 1]).
Proof.
  destruct (toBuffer legacy_genesis) as [b|e] eqn:T;
    [|vm_compute in T; discriminate T].
  destruct (id_computed_once prefix_hash prefix_hash_length legacy_genesis b
              eq_refl T) as (G & _ & L).
  exists b, (toHex (reverse (prefix_hash b))),
    (with_id legacy_genesis (toHex (reverse (prefix_hash b)))).
  split; [reflexivity|]. split; [exact G|]. apply L.
Defined.

(* ------------------------------------------------------------------ *)
(** ** The plain object and back *)

Ltac step_bind :=
  match goal with
  | H : bind ?m _ = Ok _ |- _ =>
      let E := fresh "E" in
      destruct m eqn:E; cbn [bind] in H; [|discriminate H]
  end.

(** The extended layout writes the nonce with [write]: the encoder gets
    through only when the nonce is a Buffer. *)
Lemma toBufferWriter_extended_nonce (h : BlockHeader)
      (bw : option BufferWriter) (out : BufferWriter) :
  _isBitcoinQuark (height h) = true ->
  toBufferWriter h bw = Ok out ->
  exists b, nonce h = JBuffer b.
Proof.
  intros Hq H. unfold toBufferWriter in H. rewrite Hq in H.
  repeat step_bind.
  match goal with
  | E : write _ (nonce h) = Ok _ |- _ =>
      destruct (nonce h); try discriminate E; eauto
  end.
Qed.

(** [_fromObject] puts [data.nonce] into the object it returns: the
    reversed Buffer it has just computed stays in the local variable. *)
Lemma fromObject_nonce_as_given (data : Obj.t) :
  Obj.nonce (_fromObject data) = Obj.nonce data.
Proof. reflexivity. Qed.

Lemma fromObject_string_nonce (sha256sha256 : Buffer -> Buffer)
      (obj : Obj.t) (s : string) (h' : BlockHeader) :
  Obj.nonce obj = JString s ->
  fromObject sha256sha256 obj = Ok h' ->
  nonce h' = JString s.
Proof.
  intros Hn. unfold fromObject, new_BlockHeader, _from. cbn [bind].
  set (info := _fromObject (_fromObject obj)).
  assert (Hi : Obj.nonce info = JString s) by exact Hn.
  destruct (truthy (Obj.hash info)).
  - intro H. step_bind. destruct a as [hash this].
    apply get_id_fields in E.
    destruct (strict_eq_string hash (Obj.hash info)); [|discriminate H].
    inversion H; subst h'. destruct E as [-> | ->]; exact Hi.
  - intro H. inversion H. exact Hi.
Qed.

(** C8, the header on which the code departs from the claim.  The
    rendering of the extended sample header carries the nonce as the
    hexadecimal text of its reversed bytes; [_fromObject] returns that
    text where the 32 bytes should be, and every header that [fromObject]
    builds from the rendering holds the text as its nonce, not the bytes
    the header started from. *)
Theorem fromObject_toObject_nonce_lost (sha256sha256 : Buffer -> Buffer) :
  exists obj h1,
    toObject sha256sha256 quark_sample = Ok (obj, h1) /\
    nonce quark_sample = JBuffer (x01 :: repeat x00 31) /\
    Obj.nonce obj = JString (toHex (repeat x00 31 ++ [x01])) /\
    Obj.nonce (_fromObject obj) = JString (toHex (repeat x00 31 ++ [x01])) /\
    forall h', fromObject sha256sha256 obj = Ok h' ->
               nonce h' = JString (toHex (repeat x00 31 ++ [x01])).
Proof.
  eexists; eexists. split; [vm_compute; reflexivity|].
  split; [reflexivity|]. split; [reflexivity|]. split; [reflexivity|].
  intros h'. apply fromObject_string_nonce. reflexivity.
Qed.

(** When the rendering carries a hash, the constructor reads the id of
    the new instance to compare, and the encoder stops at the nonce that
    is no Buffer: [fromObject] throws. *)
Lemma fromObject_string_nonce_throws (sha256sha256 : Buffer -> Buffer)
      (obj : Obj.t) (s : string) :
  _isBitcoinQuark (Obj.height obj) = true ->
  Obj.nonce obj = JString s ->
  truthy (Obj.hash obj) = true ->
  exists e, fromObject sha256sha256 obj = Throw e.
Proof.
  intros Hq Hn Ht. unfold fromObject, new_BlockHeader, _from. cbn [bind].
  change (Obj.hash (_fromObject (_fromObject obj))) with (Obj.hash obj).
  rewrite Ht.
  match goal with
  | |- context [get_id _ ?this] => set (h := this)
  end.
  destruct (toBuffer h) as [b|e] eqn:T.
  - unfold toBuffer in T.
    destruct (toBufferWriter h None) as [bw|e] eqn:W; [|discriminate T].
    apply toBufferWriter_extended_nonce in W; [|exact Hq].
    destruct W as [b' Hb']. change (nonce h) with (Obj.nonce obj) in Hb'.
    congruence.
  - exists e. unfold get_id, _getHash. cbn [h _id]. now rewrite T.
Qed.

Lemma fromObject_toObject_throws (sha256sha256 : Buffer -> Buffer) :
  (forall b, List.length (sha256sha256 b) = 32%nat) ->
  exists obj h1 e,
    toObject sha256sha256 quark_sample = Ok (obj, h1) /\
    fromObject sha256sha256 obj = Throw e.
Proof.
  intro Hlen.
  destruct (toBuffer quark_sample) as [b|e] eqn:T;
    [|vm_compute in T; discriminate T].
  assert (O : exists obj h1,
             toObject sha256sha256 quark_sample = Ok (obj, h1) /\
             _isBitcoinQuark (Obj.height obj) = true /\
             Obj.nonce obj = JString (toHex (repeat x00 31 ++ [x01])) /\
             Obj.hash obj = JString (toHex (reverse (sha256sha256 b)))).
  { unfold toObject.
    rewrite (get_id_fresh sha256sha256 quark_sample b eq_refl T).
    eexists; eexists. split; [reflexivity|]. repeat split. }
  destruct O as (obj & h1 & E & Hq & Hn & Hh).
  destruct (fromObject_string_nonce_throws sha256sha256 obj _ Hq Hn)
    as [e Hthrow].
  - rewrite Hh. now apply id_truthy.
  - exists obj, h1, e. auto.
Qed.

Lemma fromHex_toHex (b : Buffer) : fromHex (toHex b) = b.
Proof.
  induction b as [|x b IH]; [reflexivity|].
  cbn [toHex fromHex].
  destruct x; cbv [Z_of_byte Byte.to_N hex_digit hex_val byte_of_Z];
    cbn; now rewrite IH.
Qed.

Lemma reversed_hex_inverse (b : Buffer) :
  reversed_hex (JString (toHex (reverse b))) = JBuffer b.
Proof.
  unfold reversed_hex, reverse. rewrite fromHex_toHex. now rewrite rev_involutive.
Qed.

(** The sibling fields do come back: on the rendering of a valid extended
    header, [_fromObject] restores the bytes of prevHash, merkleRoot,
    reserved and solution; of the five fields only the nonce stays text. *)
Lemma fromObject_toObject_other_fields (sha256sha256 : Buffer -> Buffer)
      (h h1 : BlockHeader) (obj : Obj.t) :
  valid_header h -> _isBitcoinQuark (height h) = true ->
  toObject sha256sha256 h = Ok (obj, h1) ->
  Obj.prevHash (_fromObject obj) = prevHash h /\
  Obj.merkleRoot (_fromObject obj) = merkleRoot h /\
  Obj.reserved (_fromObject obj) = reserved h /\
  Obj.solution (_fromObject obj) = solution h /\
  isString (Obj.nonce (_fromObject obj)) = true.
Proof.
  intros (_ & (p & Hp & _) & (m & Hm & _) & _ & _ & Hlay) Hq.
  destruct Hlay as [(Hh & _) | (_ & _ & (r & Hr & _) & (k & Hk & _)
                                & (s & Hs & _))].
  { rewrite Hh in Hq. discriminate Hq. }
  unfold toObject. rewrite Hq. intro H.
  step_bind. destruct a as [hash this].
  assert (F : prevHash this = prevHash h /\ merkleRoot this = merkleRoot h /\
              reserved this = reserved h /\ nonce this = nonce h /\
              solution this = solution h /\ height this = height h).
  { destruct (get_id_fields _ _ _ _ E) as [-> | ->]; repeat split. }
  destruct F as (F1 & F2 & F3 & F4 & F5 & F6).
  rewrite F1, F2, F3, F4, F5, F6, Hp, Hm, Hr, Hk, Hs in H.
  cbn [reversed_toHex toString_hex bind] in H.
  inversion H; subst obj. unfold _fromObject.
  cbn [Obj.hash Obj.version Obj.prevHash Obj.merkleRoot Obj.height
       Obj.reserved Obj.time Obj.timestamp Obj.bits Obj.nonce Obj.solution].
  rewrite Hq. cbn [isString andb].
  rewrite !reversed_hex_inverse. unfold plain_hex.
  rewrite fromHex_toHex. repeat split; congruence.
Qed.

(* ------------------------------------------------------------------ *)
(** ** What the decoder returns *)

Lemma byte_of_Z_of_byte (b : byte) : byte_of_Z (Z_of_byte b) = b.
Proof.
  unfold byte_of_Z, Z_of_byte.
  pose proof (Byte.to_N_bounded b) as Hr.
  rewrite Z.mod_small by lia. rewrite N2Z.id.
  now rewrite Byte.of_to_N.
Qed.

Lemma le_value_bound (l : Buffer) :
  0 <= le_value l < 256 ^ Z.of_nat (List.length l).
Proof.
  induction l as [|x l IH]; [cbn; lia|].
  cbn [le_value List.length]. rewrite Nat2Z.inj_succ, Z.pow_succ_r by lia.
  assert (Hx : 0 <= Z_of_byte x < 256).
  { unfold Z_of_byte. pose proof (Byte.to_N_bounded x). lia. }
  lia.
Qed.

Lemma le_bytes_le_value (l : Buffer) :
  le_bytes (List.length l) (le_value l) = l.
Proof.
  induction l as [|x l IH]; [reflexivity|].
  cbn [List.length le_bytes le_value].
  assert (Hx : 0 <= Z_of_byte x < 256).
  { unfold Z_of_byte. pose proof (Byte.to_N_bounded x). lia. }
  replace ((Z_of_byte x + 256 * le_value l) mod 256) with (Z_of_byte x).
  2:{ rewrite (Z.mul_comm 256), Z_mod_plus_full.
      symmetry. now apply Z.mod_small. }
  replace ((Z_of_byte x + 256 * le_value l) / 256) with (le_value l).
  2:{ rewrite (Z.mul_comm 256), Z.div_add by lia.
      rewrite Z.div_small by lia. lia. }
  now rewrite byte_of_Z_of_byte, IH.
Qed.

Lemma read_inv (br br' : BufferReader) (n : nat) (b : Buffer) :
  read br n = Ok (b, br') ->
  List.length b = n /\ br' = advance br n /\
  (pos br + n <= List.length (buf br))%nat /\
  b = firstn n (skipn (pos br) (buf br)).
Proof.
  unfold read.
  destruct (Nat.leb_spec (pos br + n) (List.length (buf br))) as [L|L];
    [|discriminate].
  intro E. inversion E; subst. repeat split; try assumption.
  rewrite length_firstn, length_skipn. lia.
Qed.

Lemma readUIntLE_inv (k : nat) (br br' : BufferReader) (n : Z) :
  readUIntLE k br = Ok (n, br') ->
  0 <= n < 256 ^ Z.of_nat k /\ br' = advance br k /\
  (pos br + k <= List.length (buf br))%nat /\
  le_bytes k n = firstn k (skipn (pos br) (buf br)).
Proof.
  unfold readUIntLE. intro H. step_bind. destruct a as [b br1].
  inversion H; subst. apply read_inv in E.
  destruct E as (L & -> & P & Hb).
  pose proof (le_value_bound b) as B. rewrite L in B.
  repeat split; try assumption; try apply B.
  rewrite <- Hb. subst k. apply le_bytes_le_value.
Qed.

Lemma readVarintNum_range (br br' : BufferReader) (n : Z) :
  readVarintNum br = Ok (n, br') -> 0 <= n <= 2 ^ 53.
Proof.
  unfold readVarintNum, readUInt8, readUInt16LE, readUInt32LE. intro H.
  step_bind. destruct a as [first br1].
  apply readUIntLE_inv in E. destruct E as (Hf & _).
  destruct (first =? 253).
  { apply readUIntLE_inv in H. destruct H as (Hn & _).
    change (256 ^ Z.of_nat 2) with 65536 in Hn. lia. }
  destruct (first =? 254).
  { apply readUIntLE_inv in H. destruct H as (Hn & _).
    change (256 ^ Z.of_nat 4) with 4294967296 in Hn. lia. }
  destruct (first =? 255).
  { step_bind. destruct a as [m br2].
    apply readUIntLE_inv in E. destruct E as (Hm & _).
    destruct (Z.leb_spec m (2 ^ 53)); [|discriminate H].
    inversion H; subst. lia. }
  inversion H; subst. change (256 ^ Z.of_nat 1) with 256 in Hf. lia.
Qed.

Lemma decoded_header_valid_aux (br br' : BufferReader) (info : Obj.t) :
  _fromBufferReader br = Ok (info, br') ->
  valid_header (instance_of info) /\ Obj.hash info = JUndefined.
Proof.
  unfold _fromBufferReader, readUInt32LE. intro H.
  step_bind. destruct a as [v br1]. apply readUIntLE_inv in E.
  destruct E as (Hv & _).
  step_bind. destruct a as [p br2]. apply read_inv in E.
  destruct E as (Hp & _).
  step_bind. destruct a as [m br3]. apply read_inv in E.
  destruct E as (Hm & _).
  step_bind. destruct a as [t br4]. apply readUIntLE_inv in E.
  destruct E as (Ht & _).
  change (256 ^ Z.of_nat 4) with (2 ^ 32) in *.
  destruct (_isBitcoinQuark (Some t)) eqn:Hq.
  - step_bind. destruct a as [r br5]. apply read_inv in E.
    destruct E as (Hr & _).
    step_bind. destruct a as [ti br6]. apply readUIntLE_inv in E.
    destruct E as (Hti & _).
    step_bind. destruct a as [bi br7]. apply readUIntLE_inv in E.
    destruct E as (Hbi & _).
    step_bind. destruct a as [k br8]. apply read_inv in E.
    destruct E as (Hk & _).
    step_bind. destruct a as [len br9]. apply readVarintNum_range in E.
    step_bind. destruct a as [s br10]. apply read_inv in E0.
    destruct E0 as (Hs & _).
    change (256 ^ Z.of_nat 4) with (2 ^ 32) in *.
    inversion H; subst info br'. split; [|reflexivity].
    unfold valid_header, valid_extended, buffer_of, u32. cbn.
    repeat split; try lia; eauto.
    right. repeat split; eauto.
    exists s. split; [reflexivity | lia].
  - step_bind. destruct a as [bi br5]. apply readUIntLE_inv in E.
    destruct E as (Hbi & _).
    step_bind. destruct a as [n br6]. apply readUIntLE_inv in E.
    destruct E as (Hn & _).
    change (256 ^ Z.of_nat 4) with (2 ^ 32) in *.
    inversion H; subst info br'. split; [|reflexivity].
    unfold valid_header, valid_legacy, buffer_of, u32. cbn.
    repeat split; try lia; eauto.
    left. repeat split; eauto.
Qed.

(** X1.  Whatever bytes the decoder accepts, the object it returns is a
    valid record: 32-bit numbers, Buffers of the lengths of the layout, no
    hash, and a layout that the encoder will choose again. *)
Theorem decoded_header_valid (br br' : BufferReader) (info : Obj.t) :
  _fromBufferReader br = Ok (info, br') ->
  valid_header (instance_of info) /\ Obj.hash info = JUndefined.
Proof. apply decoded_header_valid_aux. Qed.

(* ------------------------------------------------------------------ *)
(** ** Headers inside longer buffers *)

(** The bytes of a valid header, read from wherever the reader stands and
    whatever follows them. *)
Lemma decode_at (h : BlockHeader) (rest : Buffer) :
  valid_header h ->
  exists bw,
    toBufferWriter h None = Ok bw /\
    forall br, reader_at br (concat bw ++ rest) ->
      exists info br',
        _fromBufferReader br = Ok (info, br') /\
        same_fields info h /\ Obj.hash info = JUndefined /\
        reader_at br' rest.
Proof.
  destruct h as [v ph mr hg rs t ts bi no so id].
  unfold valid_header, valid_legacy, valid_extended, buffer_of, u32.
  cbn [version prevHash merkleRoot height reserved time timestamp bits
       nonce solution _id].
  intros (Hv & (p & -> & Hp) & (m & -> & Hm) & Ht & Hb & Hlay).
  unfold toBufferWriter, writeUInt32LE, writeUIntLE, write.
  cbn [version prevHash merkleRoot height reserved time timestamp bits
       nonce solution _id bind app].
  destruct Hlay as [(-> & -> & -> & (n & -> & Hn) & Hdet)
                   | ((g & -> & Hg) & Hdet & (r & -> & Hr) & (k & -> & Hk)
                      & (s & -> & Hs))].
  - cbn [_isBitcoinQuark].
    repeat (range_true; cbn [bind app]).
    eexists. split; [reflexivity|].
    unfold _fromBufferReader, readUInt32LE, concat. cbn [List.concat].
    rewrite <- !app_assoc. cbn [app].
    intros br A.
    read_int 4%nat.
    read_bytes 32%nat.
    read_bytes 32%nat.
    read_int 4%nat.
    rewrite Hdet.
    read_int 4%nat.
    read_int 4%nat.
    eexists; eexists. split; [reflexivity|].
    split; [repeat split | split; [reflexivity | assumption]].
  - rewrite Hdet.
    repeat (range_true; cbn [bind app length_of]).
    unfold writeVarintNum. cbn [bind app].
    eexists. split; [reflexivity|].
    unfold _fromBufferReader, readUInt32LE, concat. cbn [List.concat].
    rewrite <- !app_assoc. cbn [app].
    intros br A.
    read_int 4%nat.
    read_bytes 32%nat.
    read_bytes 32%nat.
    read_int 4%nat.
    rewrite Hdet.
    read_bytes 28%nat.
    read_int 4%nat.
    read_int 4%nat.
    read_bytes 32%nat.
    match goal with
    | A : reader_at ?br (varintBufNum _ ++ _) |- _ =>
        destruct (readVarintNum_at br _ _ A) as (br' & E & A');
        [lia | rewrite E; clear E A; cbn [bind]]
    end.
    rewrite Nat2Z.id.
    read_bytes (List.length s).
    eexists; eexists. split; [reflexivity|].
    split; [repeat split | split; [reflexivity | assumption]].
Qed.

Lemma new_BlockHeader_without_hash (sha256sha256 : Buffer -> Buffer)
      (o : Obj.t) :
  truthy (Obj.hash o) = false ->
  new_BlockHeader sha256sha256 (ArgObject o) = Ok (instance_of (_fromObject o)).
Proof.
  intro H. unfold new_BlockHeader, _from. cbn [bind].
  change (Obj.hash (_fromObject o)) with (Obj.hash o). now rewrite H.
Qed.

Lemma instance_of_decoded (info : Obj.t) (h : BlockHeader) :
  valid_header h -> same_fields info h ->
  instance_of (_fromObject info) = rebuilt h.
Proof.
  destruct h as [v ph mr hg rs t ts bi no so id].
  destruct info as [ha v' ph' mr' hg' rs' t' ts' bi' no' so'].
  unfold valid_header, valid_legacy, valid_extended, buffer_of, same_fields.
  cbn [version prevHash merkleRoot height reserved time timestamp bits
       nonce solution _id Obj.hash Obj.version Obj.prevHash Obj.merkleRoot
       Obj.height Obj.reserved Obj.time Obj.timestamp Obj.bits Obj.nonce
       Obj.solution].
  intros (_ & (p & -> & _) & (m & -> & _) & _ & _ & Hlay)
         (-> & -> & -> & -> & -> & -> & -> & -> & ->).
  destruct Hlay as [(-> & -> & -> & (n & -> & _) & _)
                   | (_ & Hdet & (r & -> & _) & (k & -> & _) & (s & -> & _))].
  - reflexivity.
  - unfold instance_of, _fromObject, rebuilt. cbn. rewrite Hdet. reflexivity.
Qed.

(** X2.  [fromBufferReader] on a reader that stands before the bytes of a
    valid header, whatever follows them, returns the header (the same
    fields, an empty cache) and leaves the reader exactly behind the
    header, before what follows. *)
Theorem fromBufferReader_reads_header (sha256sha256 : Buffer -> Buffer)
        (h : BlockHeader) (rest : Buffer) :
  valid_header h ->
  exists b,
    toBuffer h = Ok b /\
    forall br, reader_at br (b ++ rest) ->
      exists br',
        fromBufferReader sha256sha256 br = Ok (rebuilt h, br') /\
        reader_at br' rest.
Proof.
  intro V. destruct (decode_at h rest V) as (bw & W & D).
  exists (concat bw). split; [unfold toBuffer; now rewrite W|].
  intros br A. destruct (D br A) as (info & br' & E & F & Hh & A').
  exists br'. split; [|exact A'].
  unfold fromBufferReader. rewrite E. cbn [bind].
  rewrite new_BlockHeader_without_hash by now rewrite Hh.
  cbn [bind]. now rewrite (instance_of_decoded info h V F).
Qed.

Lemma fromBuffer_of_toBuffer (sha256sha256 : Buffer -> Buffer)
      (h : BlockHeader) :
  valid_header h ->
  exists b, toBuffer h = Ok b /\ fromBuffer sha256sha256 b = Ok (rebuilt h).
Proof.
  intro V. destruct (decode_at h [] V) as (bw & W & D).
  exists (concat bw). split; [unfold toBuffer; now rewrite W|].
  destruct (D (newBufferReader (concat bw))) as (info & br' & E & F & Hh & _).
  { rewrite app_nil_r. apply reader_at_new. }
  unfold fromBuffer. rewrite E. cbn [bind].
  rewrite new_BlockHeader_without_hash by now rewrite Hh.
  now rewrite (instance_of_decoded info h V F).
Qed.

(** X3.  For every valid header, [fromBuffer] of [toBuffer] is the header
    again: every field as it was, [timestamp] equal to [time], the id not
    yet computed. *)
Theorem fromBuffer_toBuffer (sha256sha256 : Buffer -> Buffer)
        (h : BlockHeader) :
  valid_header h ->
  exists b, toBuffer h = Ok b /\ fromBuffer sha256sha256 b = Ok (rebuilt h).
Proof. apply fromBuffer_of_toBuffer. Qed.

(** X4.  For every valid header, [fromString] of [toString] is the header
    again. *)
Theorem fromString_toString (sha256sha256 : Buffer -> Buffer)
        (h : BlockHeader) :
  valid_header h ->
  exists s, toString h = Ok s /\ fromString sha256sha256 s = Ok (rebuilt h).
Proof.
  intro V. destruct (fromBuffer_of_toBuffer sha256sha256 h V) as (b & T & F).
  exists (toHex b). split.
  - unfold toString. now rewrite T.
  - unfold fromString. now rewrite fromHex_toHex.
Qed.

(** X5.  [fromRawBlock] skips exactly eight bytes: on any eight bytes, then
    the bytes of a valid header, then anything at all, it returns the
    header; what follows the header is neither read nor checked. *)
Theorem fromRawBlock_skips_prefix (sha256sha256 : Buffer -> Buffer)
        (h : BlockHeader) (prefix trailing : Buffer) :
  valid_header h -> List.length prefix = START_OF_HEADER ->
  exists b,
    toBuffer h = Ok b /\
    fromRawBlock sha256sha256 (RawBuffer (prefix ++ b ++ trailing))
    = Ok (rebuilt h).
Proof.
  intros V L. destruct (decode_at h trailing V) as (bw & W & D).
  exists (concat bw). split; [unfold toBuffer; now rewrite W|].
  unfold fromRawBlock. cbn [newBufferReader buf].
  destruct (D {| buf := prefix ++ concat bw ++ trailing;
                 pos := START_OF_HEADER |})
    as (info & br' & E & F & Hh & _).
  { split; cbn [buf pos].
    - rewrite length_app. lia.
    - rewrite <- L. apply skipn_exact. }
  rewrite E. cbn [bind].
  rewrite new_BlockHeader_without_hash by now rewrite Hh.
  now rewrite (instance_of_decoded info h V F).
Qed.

(** X6.  [new BlockHeader(buf)] and [BlockHeader.fromBuffer(buf)] agree on
    every buffer: the same header, or the same exception. *)
Theorem constructor_agrees_with_fromBuffer (sha256sha256 : Buffer -> Buffer)
        (b : Buffer) :
  new_BlockHeader sha256sha256 (ArgBuffer b) = fromBuffer sha256sha256 b.
Proof.
  unfold fromBuffer, new_BlockHeader at 1, _from.
  destruct (_fromBufferReader (newBufferReader b)) as [[info br']|e] eqn:E;
    cbn [bind]; [|reflexivity].
  destruct (decoded_header_valid_aux _ _ _ E) as [V Hh].
  rewrite Hh. cbn [truthy].
  rewrite new_BlockHeader_without_hash by now rewrite Hh.
  f_equal. symmetry.
  apply (instance_of_decoded info (instance_of info) V).
  repeat split.
Qed.

(* ------------------------------------------------------------------ *)
(** ** The size and the bytes of an encoding *)

Lemma varintBufNum_length (n : Z) :
  List.length (varintBufNum n) = varint_size n.
Proof.
  unfold varintBufNum, varint_size.
  destruct (n <? 253); [apply le_bytes_length|].
  destruct (n <? 65536); [cbn [List.length]; now rewrite le_bytes_length|].
  destruct (n <? 4294967296);
    [cbn [List.length]; now rewrite le_bytes_length|].
  cbn [List.length]. now rewrite length_app, !le_bytes_length.
Qed.

(** X7.  The encoding of a valid legacy header is exactly 80 bytes; the
    encoding of a valid extended header is 140 bytes, the varint of the
    length of the solution (1, 3, 5 or 9 bytes) and the solution. *)
Theorem toBuffer_length (h : BlockHeader) :
  valid_header h ->
  exists b,
    toBuffer h = Ok b /\
    (_isBitcoinQuark (height h) = false -> List.length b = 80%nat) /\
    (forall s, _isBitcoinQuark (height h) = true -> solution h = JBuffer s ->
       List.length b
       = (140 + varint_size (Z.of_nat (List.length s)) + List.length s)%nat).
Proof.
  destruct h as [v ph mr hg rs t ts bi no so id].
  unfold valid_header, valid_legacy, valid_extended, buffer_of, u32.
  cbn [version prevHash merkleRoot height reserved time timestamp bits
       nonce solution _id].
  intros (Hv & (p & -> & Hp) & (m & -> & Hm) & Ht & Hb & Hlay).
  unfold toBuffer, toBufferWriter, writeUInt32LE, writeUIntLE, write.
  cbn [version prevHash merkleRoot height reserved time timestamp bits
       nonce solution _id bind app].
  destruct Hlay as [(-> & -> & -> & (n & -> & Hn) & Hdet)
                   | ((g & -> & Hg) & Hdet & (r & -> & Hr) & (k & -> & Hk)
                      & (s & -> & Hs))].
  - cbn [_isBitcoinQuark].
    repeat (range_true; cbn [bind app]).
    eexists. split; [reflexivity|]. split; [|discriminate].
    intros _. unfold concat. cbn [List.concat].
    rewrite !length_app, !le_bytes_length, Hp, Hm. reflexivity.
  - rewrite Hdet.
    repeat (range_true; cbn [bind app length_of]).
    unfold writeVarintNum. cbn [bind app].
    eexists. split; [reflexivity|]. split; [discriminate|].
    intros s' _ E. inversion E; subst s'.
    unfold concat. cbn [List.concat].
    rewrite !length_app, !le_bytes_length, varintBufNum_length, Hp, Hm, Hr, Hk.
    cbn [List.length]. lia.
Qed.

Lemma read_split (br br' : BufferReader) (n : nat) (b : Buffer) :
  read br n = Ok (b, br') -> remaining br = b ++ remaining br'.
Proof.
  intro E. apply read_inv in E. destruct E as (_ & -> & _ & ->).
  unfold remaining, advance. cbn [buf pos].
  rewrite (Nat.add_comm (pos br) n), <- skipn_skipn.
  symmetry. apply firstn_skipn.
Qed.

Lemma readUIntLE_split (k : nat) (br br' : BufferReader) (n : Z) :
  readUIntLE k br = Ok (n, br') ->
  remaining br = le_bytes k n ++ remaining br' /\ 0 <= n < 256 ^ Z.of_nat k.
Proof.
  intro E. pose proof (readUIntLE_inv _ _ _ _ E) as (B & _).
  split; [|exact B].
  unfold readUIntLE in E.
  destruct (read br k) as [[b br1]|e] eqn:R; [|discriminate E].
  cbn [bind] in E. inversion E; subst.
  pose proof (read_inv _ _ _ _ R) as (L & _).
  rewrite (read_split _ _ _ _ R). f_equal.
  rewrite <- L. symmetry. apply le_bytes_le_value.
Qed.

(** X8.  When the decoder reads a header of the legacy layout, encoding
    the instance built from it gives back exactly the 80 bytes that were
    read: the id of a parsed legacy header is the hash of the bytes it
    came from. *)
Theorem legacy_bytes_restored (br br' : BufferReader) (info : Obj.t) :
  _fromBufferReader br = Ok (info, br') ->
  Obj.height info = None ->
  toBuffer (instance_of info) = Ok (firstn 80 (remaining br)) /\
  remaining br = firstn 80 (remaining br) ++ remaining br'.
Proof.
  unfold _fromBufferReader, readUInt32LE. intros H Hh.
  step_bind. destruct a as [v br1]. apply readUIntLE_split in E.
  destruct E as (R1 & Hv).
  step_bind. destruct a as [p br2].
  pose proof (read_inv _ _ _ _ E) as (Hp & _). apply read_split in E.
  rename E into R2.
  step_bind. destruct a as [m br3].
  pose proof (read_inv _ _ _ _ E) as (Hm & _). apply read_split in E.
  rename E into R3.
  step_bind. destruct a as [t br4]. apply readUIntLE_split in E.
  destruct E as (R4 & Ht).
  destruct (_isBitcoinQuark (Some t)) eqn:Hq.
  { repeat (step_bind; destruct a). inversion H; subst info.
    discriminate Hh. }
  step_bind. destruct a as [bi br5]. apply readUIntLE_split in E.
  destruct E as (R5 & Hbi).
  step_bind. destruct a as [n br6]. apply readUIntLE_split in E.
  destruct E as (R6 & Hn).
  inversion H; subst info br'. clear H Hh.
  assert (R : remaining br
              = (le_bytes 4 v ++ p ++ m ++ le_bytes 4 t ++ le_bytes 4 bi
                   ++ le_bytes 4 n) ++ remaining br6).
  { rewrite R1, R2, R3, R4, R5, R6. now rewrite <- !app_assoc. }
  assert (L : List.length (le_bytes 4 v ++ p ++ m ++ le_bytes 4 t
                             ++ le_bytes 4 bi ++ le_bytes 4 n) = 80%nat).
  { rewrite !length_app, !le_bytes_length, Hp, Hm. reflexivity. }
  assert (F : firstn 80 (remaining br)
              = le_bytes 4 v ++ p ++ m ++ le_bytes 4 t ++ le_bytes 4 bi
                  ++ le_bytes 4 n).
  { rewrite R, <- L. apply firstn_exact. }
  rewrite F. split; [|exact R].
  unfold toBuffer, toBufferWriter, writeUInt32LE, writeUIntLE, write,
    instance_of.
  cbn [version prevHash merkleRoot height reserved time timestamp bits
       nonce solution _id Obj.version Obj.prevHash Obj.merkleRoot
       Obj.height Obj.reserved Obj.time Obj.bits Obj.nonce Obj.solution
       bind app _isBitcoinQuark].
  repeat (range_true; cbn [bind app]).
  unfold concat. cbn [List.concat]. now rewrite app_nil_r.
Qed.

(** X9.  When the decoder reads a header of the extended layout, encoding
    the instance built from it gives back the 140 bytes read before the
    length of the solution, then that length as the writer writes it, then
    the solution. *)
Theorem extended_bytes_restored (br br' : BufferReader) (info : Obj.t)
        (g : Z) :
  _fromBufferReader br = Ok (info, br') ->
  Obj.height info = Some g ->
  exists s,
    Obj.solution info = JBuffer s /\
    toBuffer (instance_of info)
    = Ok (firstn 140 (remaining br)
            ++ varintBufNum (Z.of_nat (List.length s)) ++ s).
Proof.
  unfold _fromBufferReader, readUInt32LE. intros H Hh.
  step_bind. destruct a as [v br1]. apply readUIntLE_split in E.
  destruct E as (R1 & Hv).
  step_bind. destruct a as [p br2].
  pose proof (read_inv _ _ _ _ E) as (Hp & _). apply read_split in E.
  rename E into R2.
  step_bind. destruct a as [m br3].
  pose proof (read_inv _ _ _ _ E) as (Hm & _). apply read_split in E.
  rename E into R3.
  step_bind. destruct a as [t br4]. apply readUIntLE_split in E.
  destruct E as (R4 & Ht).
  destruct (_isBitcoinQuark (Some t)) eqn:Hq.
  2:{ repeat (step_bind; destruct a). inversion H; subst info.
      discriminate Hh. }
  step_bind. destruct a as [r br5].
  pose proof (read_inv _ _ _ _ E) as (Hr & _). apply read_split in E.
  rename E into R5.
  step_bind. destruct a as [ti br6]. apply readUIntLE_split in E.
  destruct E as (R6 & Hti).
  step_bind. destruct a as [bi br7]. apply readUIntLE_split in E.
  destruct E as (R7 & Hbi).
  step_bind. destruct a as [k br8].
  pose proof (read_inv _ _ _ _ E) as (Hk & _). apply read_split in E.
  rename E into R8.
  step_bind. destruct a as [len br9].
  step_bind. destruct a as [s br10].
  inversion H; subst info br'. clear H Hh.
  exists s. split; [reflexivity|].
  assert (R : remaining br
              = (le_bytes 4 v ++ p ++ m ++ le_bytes 4 t ++ r
                   ++ le_bytes 4 ti ++ le_bytes 4 bi ++ k)
                  ++ remaining br8).
  { rewrite R1, R2, R3, R4, R5, R6, R7, R8. now rewrite <- !app_assoc. }
  assert (L : List.length (le_bytes 4 v ++ p ++ m ++ le_bytes 4 t ++ r
                             ++ le_bytes 4 ti ++ le_bytes 4 bi ++ k)
              = 140%nat).
  { rewrite !length_app, !le_bytes_length, Hp, Hm, Hr, Hk. reflexivity. }
  assert (F : firstn 140 (remaining br)
              = le_bytes 4 v ++ p ++ m ++ le_bytes 4 t ++ r
                  ++ le_bytes 4 ti ++ le_bytes 4 bi ++ k).
  { rewrite R, <- L. apply firstn_exact. }
  rewrite F.
  unfold toBuffer, toBufferWriter, writeUInt32LE, writeUIntLE, write,
    instance_of.
  cbn [version prevHash merkleRoot height reserved time timestamp bits
       nonce solution _id Obj.version Obj.prevHash Obj.merkleRoot
       Obj.height Obj.reserved Obj.time Obj.bits Obj.nonce Obj.solution
       bind app].
  rewrite Hq.
  repeat (range_true; cbn [bind app length_of]).
  unfold writeVarintNum. cbn [bind app].
  unfold concat. cbn [List.concat].
  now rewrite app_nil_r, <- !app_assoc.
Qed.

(* ------------------------------------------------------------------ *)
(** ** The hash a plain object brings along *)

Lemma fromObject_twice (data : Obj.t) :
  _fromObject (_fromObject data) = _fromObject data.
Proof.
  destruct data as [ha v ph mr hg rs t ts bi no so].
  unfold _fromObject.
  cbn [Obj.hash Obj.version Obj.prevHash Obj.merkleRoot Obj.height
       Obj.reserved Obj.time Obj.timestamp Obj.bits Obj.nonce Obj.solution].
  destruct (_isBitcoinQuark hg); destruct ph, mr, rs, so, no; reflexivity.
Qed.

(** X10.  [fromObject] runs [_fromObject] twice, once itself and once in
    the constructor; the second run changes nothing, so no field is
    reversed twice: the header [fromObject] builds holds the fields of one
    run of [_fromObject]. *)
Theorem fromObject_converts_once (sha256sha256 : Buffer -> Buffer)
        (obj : Obj.t) (h : BlockHeader) :
  fromObject sha256sha256 obj = Ok h ->
  rebuilt h = instance_of (_fromObject obj).
Proof.
  unfold fromObject, new_BlockHeader, _from. cbn [bind].
  rewrite fromObject_twice.
  destruct (truthy (Obj.hash (_fromObject obj))).
  - intro H. step_bind. destruct a as [hash this].
    destruct (strict_eq_string hash (Obj.hash (_fromObject obj)));
      [|discriminate H].
    inversion H; subst h.
    destruct (get_id_fields _ _ _ _ E) as [-> | ->]; reflexivity.
  - intro H. inversion H. reflexivity.
Qed.

(** X11.  The constructor and a supplied hash.  When the object has a hash
    that is truthy and the new instance serialises, the constructor
    returns the instance, the id cached, exactly when the supplied hash is
    the string of the computed id, and throws the state error otherwise;
    when the instance does not serialise it throws what the encoder
    throws; when the hash is absent or falsy nothing is computed or
    checked. *)
Theorem constructor_checks_hash (sha256sha256 : Buffer -> Buffer)
        (obj : Obj.t) :
  let this := instance_of (_fromObject obj) in
  (truthy (Obj.hash obj) = false ->
   new_BlockHeader sha256sha256 (ArgObject obj) = Ok this) /\
  (forall e, truthy (Obj.hash obj) = true -> toBuffer this = Throw e ->
   new_BlockHeader sha256sha256 (ArgObject obj) = Throw e) /\
  (forall b, truthy (Obj.hash obj) = true -> toBuffer this = Ok b ->
   let id := toHex (reverse (sha256sha256 b)) in
   (Obj.hash obj = JString id ->
    new_BlockHeader sha256sha256 (ArgObject obj) = Ok (with_id this id)) /\
   (Obj.hash obj <> JString id ->
    new_BlockHeader sha256sha256 (ArgObject obj) = Throw InvalidState)).
Proof.
  intro this. split; [apply new_BlockHeader_without_hash|].
  unfold new_BlockHeader, _from. cbn [bind].
  change (Obj.hash (_fromObject obj)) with (Obj.hash obj).
  match goal with
  | |- context [get_id _ ?t] => change t with this
  end.
  split.
  - intros e T B. rewrite T.
    unfold get_id, _getHash. change (_id this) with (@None string).
    rewrite B. reflexivity.
  - intros b T B. rewrite T.
    rewrite (get_id_fresh sha256sha256 this b eq_refl B). cbn [bind].
    set (id := toHex (reverse (sha256sha256 b))). split.
    + intros ->. cbn [strict_eq_string]. now rewrite String.eqb_refl.
    + intro N. destruct (Obj.hash obj) as [| |s|]; try reflexivity.
      cbn [strict_eq_string].
      destruct (String.eqb_spec id s) as [->|]; [congruence | reflexivity].
Qed.

(* ------------------------------------------------------------------ *)
(** ** The plain object of a legacy header, and back *)

(** The rendering of a valid legacy header, whatever the id getter
    returned, and the instance the constructor builds from it before it
    looks at the hash. *)
Lemma legacy_rendering (sha256sha256 : Buffer -> Buffer)
      (h h1 : BlockHeader) (s : string) :
  valid_header h -> _isBitcoinQuark (height h) = false ->
  get_id sha256sha256 h = Ok (s, h1) ->
  exists obj,
    toObject sha256sha256 h = Ok (obj, h1) /\
    Obj.hash (_fromObject obj) = JString s /\
    instance_of (_fromObject (_fromObject obj)) = rebuilt h.
Proof.
  intros (_ & (p & Hp & _) & (m & Hm & _) & _ & _ & Hlay) Hq G.
  destruct Hlay as [(Hh & Hr & Hs & (n & Hn & _) & _) | (_ & Hq' & _)];
    [|congruence].
  unfold toObject. rewrite Hq, G. cbn [bind].
  assert (F : prevHash h1 = JBuffer p /\ merkleRoot h1 = JBuffer m /\
              version h1 = version h /\ time h1 = time h /\
              bits h1 = bits h /\ nonce h1 = JNumber n).
  { destruct (get_id_fields _ _ _ _ G) as [-> | ->]; cbn [with_id prevHash
      merkleRoot version time bits nonce]; repeat split; assumption. }
  destruct F as (F1 & F2 & F3 & F4 & F5 & F6).
  rewrite F1, F2, F3, F4, F5, F6. cbn [reversed_toHex bind].
  eexists. split; [reflexivity|]. split; [reflexivity|].
  unfold _fromObject, instance_of.
  cbn [Obj.hash Obj.version Obj.prevHash Obj.merkleRoot Obj.height
       Obj.reserved Obj.time Obj.timestamp Obj.bits Obj.nonce Obj.solution
       _isBitcoinQuark isString andb].
  rewrite !reversed_hex_inverse.
  destruct h as [v ph mr hg rs t ts bi no so id].
  cbn in *. subst. reflexivity.
Qed.

Lemma valid_header_serialises (h : BlockHeader) :
  valid_header h -> exists b, toBuffer h = Ok b.
Proof.
  intro V. destruct (decode_at h [] V) as (bw & W & _).
  exists (concat bw). unfold toBuffer. now rewrite W.
Qed.

(** X12.  For every valid legacy header whose id has not been read, or
    was read and is still the id of its fields, rendering it with
    [toObject] and building a header from the rendering with [fromObject]
    succeeds and gives back every field. *)
Theorem fromObject_toObject_legacy (sha256sha256 : Buffer -> Buffer)
        (h : BlockHeader) (b : Buffer) :
  valid_header h -> _isBitcoinQuark (height h) = false ->
  toBuffer h = Ok b ->
  _id h = None \/ _id h = Some (toHex (reverse (sha256sha256 b))) ->
  exists obj h1 h',
    toObject sha256sha256 h = Ok (obj, h1) /\
    fromObject sha256sha256 obj = Ok h' /\
    rebuilt h' = rebuilt h.
Proof.
  intros V Hq T C.
  set (s := toHex (reverse (sha256sha256 b))) in *.
  assert (G : exists h1, get_id sha256sha256 h = Ok (s, h1)).
  { destruct C as [C|C].
    - eexists. apply (get_id_fresh sha256sha256 h b C T).
    - unfold get_id, _getHash. rewrite C, T. cbn [bind].
      destruct (truthy (JString s)); eexists; reflexivity. }
  destruct G as [h1 G].
  destruct (legacy_rendering sha256sha256 h h1 s V Hq G) as (obj & O & Hh & I).
  exists obj, h1.
  unfold fromObject, new_BlockHeader, _from. cbn [bind].
  match goal with
  | |- context [get_id _ ?t] =>
      change t with (instance_of (_fromObject (_fromObject obj)))
  end.
  rewrite I. change (Obj.hash (_fromObject (_fromObject obj)))
    with (Obj.hash (_fromObject obj)). rewrite Hh.
  destruct (truthy (JString s)).
  - rewrite (get_id_fresh sha256sha256 (rebuilt h) b eq_refl)
      by exact T.
    cbn [bind strict_eq_string]. fold s. rewrite String.eqb_refl.
    eexists. split; [exact O|]. split; reflexivity.
  - eexists. split; [exact O|]. split; reflexivity.
Qed.

(** X13.  The stale cache shows in the rendering.  When the cached id of a
    valid legacy header is not the id of its present fields, [toObject]
    renders the cached one and [fromObject] refuses the rendering with the
    state error. *)
Theorem fromObject_toObject_stale (sha256sha256 : Buffer -> Buffer)
        (h : BlockHeader) (b : Buffer) (c : string) :
  valid_header h -> _isBitcoinQuark (height h) = false ->
  toBuffer h = Ok b ->
  _id h = Some c -> truthy (JString c) = true ->
  c <> toHex (reverse (sha256sha256 b)) ->
  exists obj,
    toObject sha256sha256 h = Ok (obj, h) /\
    Obj.hash obj = JString c /\
    fromObject sha256sha256 obj = Throw InvalidState.
Proof.
  intros V Hq T C Tc N.
  pose proof (get_id_cached sha256sha256 h c C Tc) as G.
  destruct (legacy_rendering sha256sha256 h h c V Hq G) as (obj & O & Hh & I).
  exists obj. split; [exact O|]. split; [exact Hh|].
  unfold fromObject, new_BlockHeader, _from. cbn [bind].
  match goal with
  | |- context [get_id _ ?t] =>
      change t with (instance_of (_fromObject (_fromObject obj)))
  end.
  rewrite I. change (Obj.hash (_fromObject (_fromObject obj)))
    with (Obj.hash (_fromObject obj)). rewrite Hh, Tc.
  rewrite (get_id_fresh sha256sha256 (rebuilt h) b eq_refl)
    by exact T.
  cbn [bind strict_eq_string].
  destruct (String.eqb_spec (toHex (reverse (sha256sha256 b))) c);
    [congruence | reflexivity].
Qed.

(* ------------------------------------------------------------------ *)
(** ** Decimal digits *)

Lemma string_of_uint_length (d : Decimal.uint) :
  String.length (NilEmpty.string_of_uint d) = Decimal.nb_digits d.
Proof. induction d; cbn; congruence. Qed.

Lemma of_lu_bound (d : Decimal.uint) :
  (DecimalPos.Unsigned.of_lu d < 10 ^ N.of_nat (Decimal.nb_digits d))%N.
Proof.
  induction d; cbn [DecimalPos.Unsigned.of_lu Decimal.nb_digits];
    rewrite ?Nnat.Nat2N.inj_succ, ?N.pow_succ_r'; [cbn|..]; lia.
Qed.

(** A number with at most [k] digits is below [10 ^ k]. *)
Lemma BN_toString10_bound (n : Z) :
  0 <= n -> n < 10 ^ Z.of_nat (String.length (BN_toString10 n)).
Proof.
  intro Hn. unfold BN_toString10.
  set (d := N.to_uint (Z.to_N n)).
  assert (Hd : NilZero.string_of_uint d = NilEmpty.string_of_uint d).
  { unfold NilZero.string_of_uint. destruct d eqn:E; try reflexivity.
    exfalso. subst d. destruct (Z.to_N n) as [|p]; [discriminate E|].
    cbn in E. now apply DecimalPos.Unsigned.to_uint_nonnil in E. }
  rewrite Hd, string_of_uint_length.
  assert (B : (Z.to_N n < 10 ^ N.of_nat (Decimal.nb_digits d))%N).
  { rewrite <- (DecimalN.Unsigned.of_to (Z.to_N n)). fold d.
    unfold N.of_uint. rewrite DecimalPos.Unsigned.of_uint_alt.
    rewrite <- (DecimalFacts.nb_digits_rev d). apply of_lu_bound. }
  apply N2Z.inj_lt in B. rewrite Z2N.id in B by exact Hn.
  rewrite N2Z.inj_pow in B. now rewrite Znat.nat_N_Z in B.
Qed.

Lemma BN_toString10_long (n : Z) (k : nat) :
  10 ^ Z.of_nat k <= n -> (k < String.length (BN_toString10 n))%nat.
Proof.
  intro H.
  assert (Hn : 0 <= n) by (pose proof (Z.pow_nonneg 10 (Z.of_nat k)); lia).
  pose proof (BN_toString10_bound n Hn) as B.
  destruct (Nat.lt_ge_cases k (String.length (BN_toString10 n))) as [L|L];
    [exact L|].
  assert (10 ^ Z.of_nat (String.length (BN_toString10 n)) <= 10 ^ Z.of_nat k)
    by (apply Z.pow_le_mono_r; lia).
  lia.
Qed.

(* ------------------------------------------------------------------ *)
(** ** The difficulty of a target no easier than the genesis target *)

(** X14.  Whenever the target of the header is positive and at most the
    genesis target of its layout, that is at difficulty 1 and above, the
    quotient has at least nine digits and [getDifficulty] parses it with
    the decimal point eight digits from its end. *)
Theorem getDifficulty_at_least_one (this : BlockHeader) :
  u32 (bits this) ->
  let genesisBits := if _isBitcoinQuark (height this)
                     then QUARK_GENESIS_BITS else GENESIS_BITS in
  0 < decodeCompactTarget (bits this) <= decodeCompactTarget genesisBits ->
  (9 <= String.length (ratio_digits genesisBits (bits this)))%nat /\
  getDifficulty this
  = parseFloat (point_from_end 8 (ratio_digits genesisBits (bits this))).
Proof.
  intros Hb genesisBits Ht.
  assert (L : (8 < String.length (ratio_digits genesisBits (bits this)))%nat).
  { unfold ratio_digits. apply BN_toString10_long.
    change (10 ^ Z.of_nat 8) with (10 ^ 8).
    apply Z.div_le_lower_bound; [lia|]. nia. }
  split; [lia|].
  destruct (getDifficulty_long_quotient this Hb) as [_ Hlong].
  apply Hlong; [lia | exact (Nat.lt_le_incl _ _ L)].
Qed.

(* ------------------------------------------------------------------ *)
(** ** The range of the target *)




(* ------------------------------------------------------------------ *)
(** ** The clock *)

(** X16.  With the clock at [now] milliseconds, [validTimestamp] accepts a
    header exactly when its time, in seconds, is at most 7200.5 seconds
    ahead of the clock; a header accepted at one instant is accepted at
    every later one. *)
Theorem validTimestamp_window (now : Z) (this : BlockHeader) :
  (validTimestamp now this = true
   <-> 1000 * (time this - MAX_TIME_OFFSET) <= now + 500) /\
  (forall later, now <= later -> validTimestamp now this = true ->
                 validTimestamp later this = true).
Proof.
  assert (K : forall n,
             validTimestamp n this = true
             <-> 1000 * (time this - MAX_TIME_OFFSET) <= n + 500).
  { intro n. unfold validTimestamp, MAX_TIME_OFFSET.
    pose proof (Z.div_mod (n + 500) 1000 ltac:(lia)) as D.
    pose proof (Z.mod_pos_bound (n + 500) 1000 ltac:(lia)) as M.
    destruct (Z.gtb_spec (time this) ((n + 500) / 1000 + 2 * 60 * 60))
      as [G|G];
      split; intro H; try reflexivity; try discriminate H; lia. }
  split; [apply K|].
  intros later L H. apply K. apply K in H. lia.
Qed.

(* ------------------------------------------------------------------ *)
(** ** The proof of work against the largest targets *)

Lemma hex_val_digit_of_byte (x : byte) :
  hex_val (hex_digit (Z_of_byte x / 16)) = Some (Z_of_byte x / 16) /\
  hex_val (hex_digit (Z_of_byte x mod 16)) = Some (Z_of_byte x mod 16).
Proof. destruct x; vm_compute; split; reflexivity. Qed.

Lemma BN_of_hex_byte (acc : Z) (x : byte) (t : string) :
  BN_of_hex_acc acc
    (String (hex_digit (Z_of_byte x / 16))
       (String (hex_digit (Z_of_byte x mod 16)) t))
  = BN_of_hex_acc (256 * acc + Z_of_byte x) t.
Proof.
  cbn [BN_of_hex_acc]. rewrite (proj1 (hex_val_digit_of_byte x)), (proj2 (hex_val_digit_of_byte x)).
  f_equal. pose proof (Z.div_mod (Z_of_byte x) 16 ltac:(lia)). lia.
Qed.

Lemma BN_of_hex_toHex_bound (l : Buffer) (acc : Z) :
  0 <= acc ->
  0 <= BN_of_hex_acc acc (toHex l)
     < (acc + 1) * 256 ^ Z.of_nat (List.length l).
Proof.
  revert acc. induction l as [|x l IH]; intros acc Ha.
  - cbn. lia.
  - cbn [toHex List.length]. rewrite BN_of_hex_byte.
    assert (Hx : 0 <= Z_of_byte x < 256).
    { unfold Z_of_byte. pose proof (Byte.to_N_bounded x). lia. }
    destruct (IH (256 * acc + Z_of_byte x)) as [L U]; [lia|].
    split; [exact L|].
    rewrite Nat2Z.inj_succ, Z.pow_succ_r by lia.
    assert (P : 0 < 256 ^ Z.of_nat (List.length l))
      by (apply Z.pow_pos_nonneg; lia).
    nia.
Qed.

(** X17.  When the target decoded from the bits is at least LARGEST_HASH,
    [validProofOfWork] accepts the header whatever its hash: the id of 32
    bytes, read as a number, is below [2 ^ 256]. *)
Theorem validProofOfWork_largest_target (sha256sha256 : Buffer -> Buffer)
        (h : BlockHeader) (b : Buffer) :
  (forall x, List.length (sha256sha256 x) = 32%nat) ->
  u32 (bits h) -> _id h = None -> toBuffer h = Ok b ->
  LARGEST_HASH <= decodeCompactTarget (bits h) ->
  validProofOfWork sha256sha256 h
  = Ok (true, with_id h (toHex (reverse (sha256sha256 b)))).
Proof.
  intros Hlen Hb C T Hl. unfold validProofOfWork.
  rewrite (get_id_fresh sha256sha256 h b C T). cbn [bind].
  rewrite (getTargetDifficulty_own_bits (with_id h _)) by exact Hb.
  cbn [with_id bits].
  pose proof (BN_of_hex_toHex_bound (reverse (sha256sha256 b)) 0 ltac:(lia))
    as B.
  unfold reverse in B. rewrite length_rev, Hlen in B.
  fold (reverse (sha256sha256 b)) in B.
  fold (BN_of_hex (toHex (reverse (sha256sha256 b)))) in B.
  assert (EL : LARGEST_HASH = 2 ^ 256) by (vm_compute; reflexivity).
  rewrite EL in Hl.
  change (256 ^ Z.of_nat 32) with (2 ^ 256) in B.
  unfold BN_cmp.
  destruct (Z.compare_spec (BN_of_hex (toHex (reverse (sha256sha256 b))))
              (decodeCompactTarget (bits h))) as [E|E|E];
    try reflexivity.
  exfalso. lia.
Qed.

(* ------------------------------------------------------------------ *)
(** ** The theorems above at the sample headers *)

Ltac legacy_is_valid :=
  unfold valid_header, valid_legacy, u32, buffer_of; cbn;
  repeat split; try lia; eauto;
  left; repeat split; eexists; (split; [reflexivity | lia]).

Ltac quark_is_valid :=
  unfold valid_header, valid_extended, u32, buffer_of; cbn;
  repeat split; try lia; eauto;
  right; repeat split; eauto; eexists; (split; [reflexivity | cbn; lia]).

Lemma decoded_header_valid_witness :
  exists info br',
    _fromBufferReader (newBufferReader quark_sample_bytes) = Ok (info, br') /\
    valid_header (instance_of info) /\ Obj.hash info = JUndefined.
Proof.
  destruct (_fromBufferReader (newBufferReader quark_sample_bytes))
    as [[info br']|e] eqn:E; [|vm_compute in E; discriminate E].
  exists info, br'. split; [reflexivity|].
  exact (decoded_header_valid _ _ _ E).
Defined.

Lemma fromBufferReader_reads_header_witness :
  exists b,
    toBuffer quark_sample = Ok b /\
    exists br',
      fromBufferReader prefix_hash (newBufferReader (b ++ [x01; x02]))
      = Ok (rebuilt quark_sample, br') /\
      reader_at br' [x01; x02].
Proof.
  assert (V : valid_header quark_sample) by quark_is_valid.
  destruct (fromBufferReader_reads_header prefix_hash quark_sample
              [x01; x02] V) as (b & T & F).
  exists b. split; [exact T|]. apply F. apply reader_at_new.
Defined.

Lemma fromBuffer_toBuffer_witness :
  exists b,
    toBuffer legacy_genesis = Ok b /\
    fromBuffer prefix_hash b = Ok (rebuilt legacy_genesis).
Proof.
  apply (fromBuffer_toBuffer prefix_hash legacy_genesis). legacy_is_valid.
Defined.

Lemma fromString_toString_witness :
  exists s,
    toString quark_sample = Ok s /\
    fromString prefix_hash s = Ok (rebuilt quark_sample).
Proof.
  apply (fromString_toString prefix_hash quark_sample). quark_is_valid.
Defined.

Lemma fromRawBlock_skips_prefix_witness :
  exists b,
    toBuffer legacy_genesis = Ok b /\
    fromRawBlock prefix_hash
      (RawBuffer (repeat xff 8 ++ b ++ [x01; x02; x03]))
    = Ok (rebuilt legacy_genesis).
Proof.
  apply (fromRawBlock_skips_prefix prefix_hash legacy_genesis);
    [legacy_is_valid | reflexivity].
Defined.

Lemma toBuffer_length_witness :
  exists b,
    toBuffer quark_sample = Ok b /\ List.length b = 143%nat.
Proof.
  assert (V : valid_header quark_sample) by quark_is_valid.
  destruct (toBuffer_length quark_sample V) as (b & T & _ & L).
  exists b. split; [exact T|].
  exact (L [xab; xcd] eq_refl eq_refl).
Defined.

Lemma legacy_bytes_restored_witness :
  exists info br',
    _fromBufferReader (newBufferReader (legacy_genesis_bytes ++ [x07]))
    = Ok (info, br') /\
    toBuffer (instance_of info) = Ok legacy_genesis_bytes.
Proof.
  destruct (_fromBufferReader
              (newBufferReader (legacy_genesis_bytes ++ [x07])))
    as [[info br']|e] eqn:E; [|vm_compute in E; discriminate E].
  exists info, br'. split; [reflexivity|].
  assert (Hh : Obj.height info = None)
    by (vm_compute in E; inversion E; reflexivity).
  exact (proj1 (legacy_bytes_restored _ _ _ E Hh)).
Defined.

Lemma extended_bytes_restored_witness :
  exists info br' s,
    _fromBufferReader (newBufferReader quark_sample_bytes) = Ok (info, br') /\
    Obj.solution info = JBuffer s /\
    toBuffer (instance_of info)
    = Ok (firstn 140 quark_sample_bytes
            ++ varintBufNum (Z.of_nat (List.length s)) ++ s).
Proof.
  destruct (_fromBufferReader (newBufferReader quark_sample_bytes))
    as [[info br']|e] eqn:E; [|vm_compute in E; discriminate E].
  assert (Hh : Obj.height info = Some 630000)
    by (vm_compute in E; inversion E; reflexivity).
  destruct (extended_bytes_restored _ _ _ _ E Hh) as (s & S & T).
  exists info, br', s. split; [reflexivity|]. split; [exact S | exact T].
Defined.

Lemma fromObject_converts_once_witness :
  exists h,
    fromObject prefix_hash quark_object = Ok h /\
    rebuilt h = instance_of (_fromObject quark_object).
Proof.
  destruct (fromObject prefix_hash quark_object) as [h|e] eqn:E;
    [|vm_compute in E; discriminate E].
  exists h. split; [reflexivity|].
  exact (fromObject_converts_once prefix_hash quark_object h E).
Defined.

Lemma fromObject_toObject_legacy_witness :
  exists obj h1 h',
    toObject prefix_hash legacy_genesis = Ok (obj, h1) /\
    fromObject prefix_hash obj = Ok h' /\
    rebuilt h' = rebuilt legacy_genesis.
Proof.
  apply (fromObject_toObject_legacy prefix_hash legacy_genesis
           legacy_genesis_bytes);
    [legacy_is_valid | reflexivity | reflexivity | left; reflexivity].
Defined.

Lemma fromObject_toObject_stale_witness :
  exists obj,
    toObject prefix_hash stale_genesis = Ok (obj, stale_genesis) /\
    Obj.hash obj = JString "00" /\
    fromObject prefix_hash obj = Throw InvalidState.
Proof.
  destruct (toBuffer stale_genesis) as [b|e] eqn:T;
    [|vm_compute in T; discriminate T].
  apply (fromObject_toObject_stale prefix_hash stale_genesis b "00");
    [legacy_is_valid | reflexivity | exact T | reflexivity | reflexivity |].
  vm_compute in T. inversion T; subst b. vm_compute. discriminate.
Defined.

Lemma getDifficulty_at_least_one_witness :
  (9 <= String.length (ratio_digits QUARK_GENESIS_BITS 0x1f07ffff))%nat /\
  getDifficulty quark_sample
  = parseFloat (point_from_end 8 (ratio_digits QUARK_GENESIS_BITS 0x1f07ffff)).
Proof.
  apply (getDifficulty_at_least_one quark_sample).
  - unfold u32. cbn. lia.
  - vm_compute. split; [reflexivity | discriminate].
Defined.


Lemma validProofOfWork_largest_target_witness :
  exists b,
    toBuffer easiest_header = Ok b /\
    validProofOfWork prefix_hash easiest_header
    = Ok (true, with_id easiest_header (toHex (reverse (prefix_hash b)))).
Proof.
  destruct (toBuffer easiest_header) as [b|e] eqn:T;
    [|vm_compute in T; discriminate T].
  exists b. split; [reflexivity|].
  apply (validProofOfWork_largest_target prefix_hash easiest_header b);
    [exact prefix_hash_length | unfold u32; cbn; lia | reflexivity | exact T |].
  vm_compute. discriminate.
Defined.
